(** * Bulk-add operations of [backend/routes/collections.py]

    A shallow embedding of the operation registry, the background worker
    [add_companies_to_collection_task], the two dispatching handlers and the
    status poll, followed by the properties of the operation life cycle. *)

From Stdlib Require Import ZArith String List Lia.
From stdpp Require Import gmap strings list fin_sets pretty sorting.

(** ** Data model *)

(** Collection identifiers are [uuid.UUID] values; the code only compares
    them for equality, so the 128-bit value is kept as a number. *)
Definition uuid := N.

(** Modelled from the spec: the table [database.CompanyCollection]
    (module [backend.db], outside the sources) holds the named collections. *)
Record CompanyCollection := {
  id : uuid;
  collection_name : string
}.

(** Modelled from the spec: a row of [database.CompanyCollectionAssociation],
    the pair (memberId, collectionId), unique per pair. *)
Record CompanyCollectionAssociation := {
  company_id : Z;
  collection_id : uuid
}.

#[global] Instance CompanyCollectionAssociation_eq_dec :
  EqDecision CompanyCollectionAssociation.
Proof. solve_decision. Defined.

(** The state of the database as a session sees it: both tables, rows in
    table order. *)
Record Session := {
  collections : list CompanyCollection;
  associations : list CompanyCollectionAssociation
}.

(** [status: str  # "pending", "in_progress", "completed", "failed"] *)
Inductive Status := pending | in_progress | completed | failed.

#[global] Instance Status_eq_dec : EqDecision Status.
Proof. solve_decision. Defined.

Definition status_str (s : Status) : string :=
  match s with
  | pending => "pending"
  | in_progress => "in_progress"
  | completed => "completed"
  | failed => "failed"
  end.

(** An entry of [operations_store]: the dictionary built by the handlers,
    which is also the shape of [OperationStatus]. *)
Record Operation := {
  operation_id : string;
  status : Status;
  progress : nat;
  total : nat;
  error_message : option string
}.

Definition set_status (v : Status) (o : Operation) : Operation :=
  {| operation_id := operation_id o; status := v; progress := progress o;
     total := total o; error_message := error_message o |}.

Definition set_progress (v : nat) (o : Operation) : Operation :=
  {| operation_id := operation_id o; status := status o; progress := v;
     total := total o; error_message := error_message o |}.

Definition set_total (v : nat) (o : Operation) : Operation :=
  {| operation_id := operation_id o; status := status o; progress := progress o;
     total := v; error_message := error_message o |}.

Definition set_error_message (v : string) (o : Operation) : Operation :=
  {| operation_id := operation_id o; status := status o; progress := progress o;
     total := total o; error_message := Some v |}.

(** ** The persistence layer *)

(** Python's [needle in hay] on strings. *)
Fixpoint contains (needle hay : string) : bool :=
  String.prefix needle hay ||
  match hay with
  | EmptyString => false
  | String _ rest => contains needle rest
  end.

(** Modelled from the spec: the name of the uniqueness constraint on
    (memberId, collectionId), declared in [backend.db]; the worker looks for
    it in the text of the exception. *)
Definition uq_company_collection : string := "uq_company_collection".

(** Modelled from the spec: the text of the integrity error raised by a
    commit that violates the uniqueness constraint. *)
Definition unique_violation : string :=
  "duplicate key value violates unique constraint uq_company_collection".

(** What the worker cannot control: the membership query may raise, the
    commit of the record at a position of the working set may raise for a
    reason of its own, and other sessions may commit rows just before it. *)
Record Environment := {
  query_error : option string;
  commit_error : nat → option string;
  concurrent_commits : nat → list CompanyCollectionAssociation
}.

(** Nothing fails and nobody else writes. *)
Definition quiet : Environment :=
  {| query_error := None;
     commit_error := λ _, None;
     concurrent_commits := λ _, [] |}.

Definition with_associations (rows : list CompanyCollectionAssociation)
    (db : Session) : Session :=
  {| collections := collections db; associations := rows |}.

(** A row committed by any session is kept only if the pair is new. *)
Definition insert_row (db : Session) (row : CompanyCollectionAssociation)
    : Session :=
  if decide (row ∈ associations db) then db
  else with_associations (associations db ++ [row]) db.

Definition commit_others (rows : list CompanyCollectionAssociation)
    (db : Session) : Session :=
  foldl insert_row db rows.

Inductive CommitResult :=
  | Committed (db : Session)
  | Raised (e : string).

(** [db.add(association); db.commit()] for the record at position [i]. *)
Definition add_commit (env : Environment) (i : nat)
    (row : CompanyCollectionAssociation) (db : Session) : CommitResult :=
  match commit_error env i with
  | Some e => Raised e
  | None =>
      if decide (row ∈ associations db) then Raised unique_violation
      else Committed (with_associations (associations db ++ [row]) db)
  end.

(** [db.query(CompanyCollection).get(collection_id)] *)
Definition query_get (db : Session) (cid : uuid) : option CompanyCollection :=
  List.find (λ c, bool_decide (id c = cid)) (collections db).

(** [db.query(CompanyCollectionAssociation).filter(and_(company_id.in_(ids),
    collection_id == cid)).all()] *)
Definition query_in (db : Session) (ids : list Z) (cid : uuid)
    : list CompanyCollectionAssociation :=
  filter (λ a, company_id a ∈ ids ∧ collection_id a = cid) (associations db).

(** [db.query(CompanyCollectionAssociation).filter(collection_id == cid).all()] *)
Definition query_all (db : Session) (cid : uuid)
    : list CompanyCollectionAssociation :=
  filter (λ a, collection_id a = cid) (associations db).

(** [{assoc.company_id for assoc in rows}] *)
Definition company_id_set (rows : list CompanyCollectionAssociation) : gset Z :=
  list_to_set (company_id <$> rows).

(** ** The background worker *)

(** The loop of [add_companies_to_collection_task] from position [i] on:
    the states written to the registry, the last of them, the database, and
    the exception that left the loop, if one did. *)
Fixpoint insert_loop (env : Environment) (target_collection_id : uuid)
    (i : nat) (companies_to_add : list Z) (op : Operation) (db : Session)
    : list Operation * Operation * Session * option string :=
  match companies_to_add with
  | [] => ([], op, db, None)
  | cid :: rest =>
      let db1 := commit_others (concurrent_commits env i) db in
      let association :=
        {| company_id := cid; collection_id := target_collection_id |} in
      match add_commit env i association db1 with
      | Committed db2 =>
          let op' := set_progress (i + 1) op in
          let '(written, opl, dbl, exn) :=
            insert_loop env target_collection_id (S i) rest op' db2 in
          (op' :: written, opl, dbl, exn)
      | Raised e =>
          if contains uq_company_collection e
          then insert_loop env target_collection_id (S i) rest op db1
          else ([], op, db1, Some e)
      end
  end.

(** What happened to the record at one position of the working set: the
    commit went through, the [except] clause found the name of the
    constraint in the text of the exception, or it raised it again. *)
Inductive Outcome :=
  | Inserted
  | Skipped (e : string)
  | Fatal (e : string).

#[global] Instance Outcome_eq_dec : EqDecision Outcome.
Proof. solve_decision. Defined.

(** The outcomes of the loop, position by position, up to and including the
    one that left it. *)
Fixpoint outcomes (env : Environment) (target_collection_id : uuid)
    (i : nat) (companies_to_add : list Z) (db : Session) : list Outcome :=
  match companies_to_add with
  | [] => []
  | cid :: rest =>
      let db1 := commit_others (concurrent_commits env i) db in
      let association :=
        {| company_id := cid; collection_id := target_collection_id |} in
      match add_commit env i association db1 with
      | Committed db2 =>
          Inserted :: outcomes env target_collection_id (S i) rest db2
      | Raised e =>
          if contains uq_company_collection e
          then Skipped e :: outcomes env target_collection_id (S i) rest db1
          else [Fatal e]
      end
  end.

(** The number of commits that went through in a log. *)
Definition insertions (log : list Outcome) : nat :=
  length (filter (λ o, o = Inserted) log).

(** One plus the position of the last commit that went through, 0 when
    there is none. *)
Fixpoint last_insertion (log : list Outcome) : nat :=
  match log with
  | [] => 0
  | o :: rest =>
      match last_insertion rest with
      | 0 => if decide (o = Inserted) then 1 else 0
      | S p => S (S p)
      end
  end.

(** The working set: [companies_to_add]. *)
Definition companies_to_add (db : Session) (company_ids : list Z)
    (target_collection_id : uuid) : list Z :=
  let existing_associations := query_in db company_ids target_collection_id in
  let existing_company_ids := company_id_set existing_associations in
  filter (λ cid, cid ∉ existing_company_ids) company_ids.

(** The body of the task on the registry entry of its operation: the
    successive states of the entry and the database it leaves. *)
Definition task_body (env : Environment) (company_ids : list Z)
    (source_collection_id target_collection_id : uuid)
    (op : Operation) (db : Session) : list Operation * Session :=
  let op1 := set_status in_progress op in
  let op2 := set_total (length company_ids) op1 in
  match query_error env with
  | Some e =>
      let op3 := set_status failed op2 in
      let op4 := set_error_message e op3 in
      ([op1; op2; op3; op4], db)
  | None =>
      let to_add := companies_to_add db company_ids target_collection_id in
      let op3 := set_total (length to_add) op2 in
      let '(written, opl, dbl, exn) :=
        insert_loop env target_collection_id 0 to_add op3 db in
      match exn with
      | None =>
          ([op1; op2; op3] ++ written ++ [set_status completed opl], dbl)
      | Some e =>
          let opf := set_status failed opl in
          ([op1; op2; op3] ++ written ++ [opf; set_error_message e opf], dbl)
      end
  end.

(** An exception that leaves the task: [KeyError(key)], raised by
    [operations_store[key]] for a key that is not there. *)
Inductive Escaped :=
  | KeyError (key : string).

(** One run of the task: the registry after each write, the database at the
    end, and the exception that escaped the task, if any. *)
Record TaskRun := {
  observed : list (gmap string Operation);
  final_db : Session;
  escaped : option Escaped
}.

(** [add_companies_to_collection_task].  The entry of the operation is a
    dictionary changed in place; an unknown identifier raises
    [KeyError(operation_id)] at the first write and again in the handler, so
    it escapes. *)
Definition add_companies_to_collection_task (env : Environment)
    (operation_id : string) (company_ids : list Z)
    (source_collection_id target_collection_id : uuid) (db : Session)
    (operations_store : gmap string Operation) : TaskRun :=
  match operations_store !! operation_id with
  | None =>
      {| observed := []; final_db := db;
         escaped := Some (KeyError operation_id) |}
  | Some op =>
      let '(written, db') :=
        task_body env company_ids source_collection_id target_collection_id
          op db in
      {| observed := (λ o, <[operation_id := o]> operations_store) <$> written;
         final_db := db';
         escaped := None |}
  end.

(** The registry when the task has returned. *)
Definition final_store (operations_store : gmap string Operation)
    (run : TaskRun) : gmap string Operation :=
  List.last (observed run) operations_store.

(** ** The request handlers *)

(** What a handler answers: an [HTTPException] or an [AddCompaniesResponse]. *)
Inductive Response :=
  | HTTPException (status_code : nat) (detail : string)
  | AddCompaniesResponse (operation_id : string) (message : string).

(** The arguments given to [background_tasks.add_task]; the session of the
    task is a new one on the same database. *)
Record BackgroundTask := {
  task_operation_id : string;
  task_company_ids : list Z;
  task_source_collection_id : uuid;
  task_target_collection_id : uuid
}.

(** A handled request: the answer, the registry it leaves and the task it
    scheduled, if any. *)
Record Handled := {
  response : Response;
  store_after : gmap string Operation;
  scheduled : option BackgroundTask
}.

Definition new_operation (operation_id : string) (n : nat) : Operation :=
  {| operation_id := operation_id; status := pending; progress := 0;
     total := n; error_message := None |}.

(** [add_companies_to_collection]; [new_uuid] is [str(uuid.uuid4())]. *)
Definition add_companies_to_collection (new_uuid : string)
    (source_collection_id target_collection_id : uuid)
    (request_company_ids : list Z) (db : Session)
    (operations_store : gmap string Operation) : Handled :=
  match query_get db source_collection_id,
        query_get db target_collection_id with
  | Some source_collection, Some target_collection =>
      let dispatched :=
        {| response :=
             AddCompaniesResponse new_uuid
               ("Adding " +:+ pretty (length request_company_ids) +:+
                " companies to " +:+ collection_name target_collection);
           store_after :=
             <[new_uuid := new_operation new_uuid (length request_company_ids)]>
               operations_store;
           scheduled :=
             Some {| task_operation_id := new_uuid;
                     task_company_ids := request_company_ids;
                     task_source_collection_id := source_collection_id;
                     task_target_collection_id := target_collection_id |} |} in
      match request_company_ids with
      | [] => dispatched
      | _ :: _ =>
          let existing_in_source :=
            query_in db request_company_ids source_collection_id in
          let valid_company_ids := company_id_set existing_in_source in
          if decide (size valid_company_ids ≠ length request_company_ids)
          then
            {| response :=
                 HTTPException 400
                   "Some companies not found in source collection";
               store_after := operations_store;
               scheduled := None |}
          else dispatched
      end
  | _, _ =>
      {| response := HTTPException 404 "Collection not found";
         store_after := operations_store;
         scheduled := None |}
  end.

(** [add_all_companies_to_collection] *)
Definition add_all_companies_to_collection (new_uuid : string)
    (source_collection_id target_collection_id : uuid) (db : Session)
    (operations_store : gmap string Operation) : Handled :=
  match query_get db source_collection_id,
        query_get db target_collection_id with
  | Some source_collection, Some target_collection =>
      let source_companies := query_all db source_collection_id in
      let company_ids := company_id <$> source_companies in
      {| response :=
           AddCompaniesResponse new_uuid
             ("Adding all " +:+ pretty (length company_ids) +:+
              " companies from " +:+ collection_name source_collection +:+
              " to " +:+ collection_name target_collection);
         store_after :=
           <[new_uuid := new_operation new_uuid (length company_ids)]>
             operations_store;
         scheduled :=
           Some {| task_operation_id := new_uuid;
                   task_company_ids := company_ids;
                   task_source_collection_id := source_collection_id;
                   task_target_collection_id := target_collection_id |} |}
  | _, _ =>
      {| response := HTTPException 404 "Collection not found";
         store_after := operations_store;
         scheduled := None |}
  end.

(** [get_operation_status]: what a poll sees, [None] standing for the 404. *)
Definition get_operation_status (operation_id : string)
    (operations_store : gmap string Operation) : option Operation :=
  operations_store !! operation_id.

(** The scheduled task, run by the framework once the answer is sent. *)
Definition run_task (env : Environment) (t : BackgroundTask) (db : Session)
    (operations_store : gmap string Operation) : TaskRun :=
  add_companies_to_collection_task env (task_operation_id t)
    (task_company_ids t) (task_source_collection_id t)
    (task_target_collection_id t) db operations_store.

(** The states a poll of the operation can see during a run, in order:
    the registry as the handler left it, then each write of the task. *)
Definition polls (operation_id : string)
    (operations_store : gmap string Operation) (run : TaskRun)
    : list (option Operation) :=
  get_operation_status operation_id <$> (operations_store :: observed run).


(** The two dispatching requests, and the router that sends each to its
    handler. *)
Inductive Request :=
  | AddSelected (source_collection_id target_collection_id : uuid)
      (company_ids : list Z)
  | AddAll (source_collection_id target_collection_id : uuid).

Definition handle (new_uuid : string) (r : Request) (db : Session)
    (operations_store : gmap string Operation) : Handled :=
  match r with
  | AddSelected source_collection_id target_collection_id company_ids =>
      add_companies_to_collection new_uuid source_collection_id
        target_collection_id company_ids db operations_store
  | AddAll source_collection_id target_collection_id =>
      add_all_companies_to_collection new_uuid source_collection_id
        target_collection_id db operations_store
  end.

(** The number of records of a log that were skipped. *)
Definition skipped (o : Outcome) : bool :=
  match o with Skipped _ => true | _ => false end.

Definition skips (log : list Outcome) : nat :=
  length (filter (λ o, skipped o = true) log).

(** The row that puts a company in a collection. *)
Definition member (cid : Z) (collection : uuid) : CompanyCollectionAssociation :=
  {| company_id := cid; collection_id := collection |}.

(** The values of [i + 1] at the commits of a log that went through, the
    log starting at position [i]. *)
Fixpoint marks (i : nat) (log : list Outcome) : list nat :=
  match log with
  | [] => []
  | Inserted :: rest => (i + 1) :: marks (S i) rest
  | _ :: rest => marks (S i) rest
  end.

(** The exception a log ends with. *)
Definition raised (log : list Outcome) : option string :=
  match List.last log Inserted with
  | Fatal e => Some e
  | _ => None
  end.

(** What [add_companies_to_collection] schedules. *)
Definition selection_task (new_uuid : string) (src tgt : uuid)
    (ids : list Z) : BackgroundTask :=
  {| task_operation_id := new_uuid;
     task_company_ids := ids;
     task_source_collection_id := src;
     task_target_collection_id := tgt |}.

(** A state of an operation whose task is still to finish. *)
Definition running (o : Operation) : Prop :=
  (status o = pending ∨ status o = in_progress) ∧ error_message o = None.

(** The end of a run: one completed state, or a failed state followed by
    the same state with its error message. *)
Definition ending (l : list Operation) : Prop :=
  (∃ c, l = [c] ∧ status c = completed ∧ error_message c = None) ∨
  (∃ f e, l = [f; set_error_message e f] ∧
          status f = failed ∧ error_message f = None).

(** ** A run with a concurrent writer and a lost connection *)

Definition S_id : uuid := 1%N.
Definition T_id : uuid := 2%N.

Definition two_collections : list CompanyCollection :=
  [ {| id := S_id; collection_name := "S" |};
    {| id := T_id; collection_name := "T" |} ].

(** Companies 1, 2 and 3 are in S, and T is empty. *)
Definition race_db : Session :=
  {| collections := two_collections;
     associations := [member 1 S_id; member 2 S_id; member 3 S_id] |}.

(** Another session puts company 1 in T just before the first commit of the
    worker, and the third commit finds the connection gone. *)
Definition race_env : Environment :=
  {| query_error := None;
     commit_error :=
       λ i, if decide (i = 2) then Some "connection lost"%string else None;
     concurrent_commits :=
       λ i, if decide (i = 0) then [member 1 T_id] else [] |}.

Definition race_store : gmap string Operation :=
  {[ "op-1"%string := new_operation "op-1" 3 ]}.

(** Only uniqueness violations trouble this run: another session puts
    company 1 in T just before the first commit of the worker. *)
Definition busy_env : Environment :=
  {| query_error := None;
     commit_error := λ _, None;
     concurrent_commits :=
       λ i, if decide (i = 0) then [member 1 T_id] else [] |}.

(** ** The scenario of the two collections *)

(** Companies 1, 2 and 3 are in S, and company 2 is in T. *)
Definition scenario_db : Session :=
  {| collections := two_collections;
     associations :=
       [member 1 S_id; member 2 S_id; member 3 S_id; member 2 T_id] |}.

Definition scenario_state (s : Status) (p n : nat) : option Operation :=
  Some {| operation_id := "op-1"; status := s; progress := p; total := n;
          error_message := None |}.

(** ** The listing of the collections *)

(** [CompanyCollectionMetadata] *)
Record CompanyCollectionMetadata := {
  metadata_id : uuid;
  metadata_collection_name : string
}.

(** [get_all_collection_metadata]: one entry per row of
    [db.query(CompanyCollection).all()], in table order. *)
Definition get_all_collection_metadata (db : Session)
    : list CompanyCollectionMetadata :=
  (λ collection,
     {| metadata_id := id collection;
        metadata_collection_name := collection_name collection |})
    <$> collections db.

(** ** The rows a run writes *)

(** The members of the working set whose commit went through, read off the
    log of the loop. *)
Fixpoint inserted (log : list Outcome) (ws : list Z) : list Z :=
  match log, ws with
  | Inserted :: log', cid :: ws' => cid :: inserted log' ws'
  | _ :: log', _ :: ws' => inserted log' ws'
  | _, _ => []
  end.

(** No other session writes during the run. *)
Definition alone (env : Environment) : Prop :=
  ∀ k, concurrent_commits env k = [].

(** No commit of the run raises for a reason of its own. *)
Definition commits_sound (env : Environment) : Prop :=
  ∀ k, commit_error env k = None.

(** ** Order between the states of an operation *)

(** From one state to a later one: progress does not go down and total
    does not go up. *)
Definition advances (o o' : Operation) : Prop :=
  progress o ≤ progress o' ∧ total o' ≤ total o.

(** The database does not answer. *)
Definition down_env : Environment :=
  {| query_error := Some "server closed the connection"%string;
     commit_error := λ _, None;
     concurrent_commits := λ _, [] |}.

(** Nobody else writes, and the second commit finds the connection gone. *)
Definition lossy_env : Environment :=
  {| query_error := None;
     commit_error :=
       λ i, if decide (i = 1) then Some "connection lost"%string else None;
     concurrent_commits := λ _, [] |}.

(** Another session puts company 1 in T just before the first commit of the
    worker, and the third commit raises an exception whose text is empty,
    as [str(Exception())] is. *)
Definition mute_env : Environment :=
  {| query_error := None;
     commit_error := λ i, if decide (i = 2) then Some ""%string else None;
     concurrent_commits :=
       λ i, if decide (i = 0) then [member 1 T_id] else [] |}.

(** ** The collections a request names *)

Definition request_source (r : Request) : uuid :=
  match r with
  | AddSelected source_collection_id _ _ => source_collection_id
  | AddAll source_collection_id _ => source_collection_id
  end.

Definition request_target (r : Request) : uuid :=
  match r with
  | AddSelected _ target_collection_id _ => target_collection_id
  | AddAll _ target_collection_id => target_collection_id
  end.

(** The identifiers that [get_all_collection_metadata] lists. *)
Definition listed (db : Session) : list uuid :=
  metadata_id <$> get_all_collection_metadata db.

(** ** The loop and its log *)

Lemma set_progress_twice p q o :
  set_progress p (set_progress q o) = set_progress p o.
Proof. reflexivity. Qed.

Lemma last_cons_cons {A} (x y : A) l d :
  List.last (x :: y :: l) d = List.last (y :: l) d.
Proof. reflexivity. Qed.

Lemma last_cons_default {A} (x : A) l d :
  List.last (x :: l) d = List.last l x.
Proof.
  revert x d; induction l as [|y l IH]; intros x d; [done|].
  rewrite last_cons_cons. rewrite (IH y d). symmetry. apply IH.
Qed.

Lemma last_fmap {A B} (f : A → B) l d :
  List.last (f <$> l) (f d) = f (List.last l d).
Proof.
  revert d; induction l as [|x l IH]; intros d; [done|].
  rewrite fmap_cons, !last_cons_default. apply IH.
Qed.

Section Loop.
Variable env : Environment.
Variable tgt : uuid.

#[local] Arguments List.last : simpl never.

Lemma raised_cons o o' log : raised (o :: o' :: log) = raised (o' :: log).
Proof. reflexivity. Qed.

Lemma outcomes_fatal_last i ws db k e :
  outcomes env tgt i ws db !! k = Some (Fatal e) →
  length (outcomes env tgt i ws db) = S k.
Proof.
  revert i db k; induction ws as [|cid rest IH]; intros i db k; simpl; [done|].
  destruct (add_commit _ _ _ _) as [db2|e'].
  - destruct k as [|k]; simpl; [done|]. intros H. f_equal. eauto.
  - destruct (contains _ _).
    + destruct k as [|k]; simpl; [done|]. intros H. f_equal. eauto.
    + destruct k as [|k]; simpl; [done|]. by rewrite lookup_nil.
Qed.

Lemma outcomes_length i ws db :
  length (outcomes env tgt i ws db) ≤ length ws.
Proof.
  revert i db; induction ws as [|cid rest IH]; intros i db; simpl; [done|].
  destruct (add_commit _ _ _ _) as [db2|e'].
  - simpl. specialize (IH (S i) db2). lia.
  - destruct (contains _ _); simpl.
    + specialize (IH (S i) (commit_others (concurrent_commits env i) db)). lia.
    + lia.
Qed.

Lemma outcomes_no_fatal_length i ws db :
  raised (outcomes env tgt i ws db) = None →
  length (outcomes env tgt i ws db) = length ws.
Proof.
  revert i db; induction ws as [|cid rest IH]; intros i db; simpl; [done|].
  destruct (add_commit _ _ _ _) as [db2|e'].
  - intros H. simpl. f_equal. apply IH.
    destruct (outcomes env tgt (S i) rest db2); [done|]. by rewrite raised_cons in H.
  - destruct (contains _ _) eqn:Hc; simpl.
    + intros H. f_equal. apply IH.
      destruct (outcomes env tgt (S i) rest _); [done|]. by rewrite raised_cons in H.
    + done.
Qed.

(** The loop read off its log. *)
Lemma insert_loop_log i ws op db :
  let log := outcomes env tgt i ws db in
  let written := (λ p, set_progress p op) <$> marks i log in
  ∃ dbl,
    insert_loop env tgt i ws op db =
      (written, List.last written op, dbl, raised log).
Proof.
  revert i op db; induction ws as [|cid rest IH]; intros i op db; simpl.
  { by eexists. }
  destruct (add_commit _ _ _ _) as [db2|e'].
  - destruct (IH (S i) (set_progress (i + 1) op) db2) as [dbl ->].
    exists dbl. simpl. rewrite last_cons_default.
    assert (raised (Inserted :: outcomes env tgt (S i) rest db2)
            = raised (outcomes env tgt (S i) rest db2)) as ->; [|done].
    by destruct (outcomes env tgt (S i) rest db2).
  - destruct (contains _ _) eqn:Hc; simpl.
    + destruct (IH (S i) op (commit_others (concurrent_commits env i) db))
        as [dbl ->].
      exists dbl. f_equal.
      destruct (outcomes env tgt (S i) rest _); done.
    + by eexists.
Qed.
End Loop.

(** ** Counting in a log *)

Lemma marks_bound i log p :
  p ∈ marks i log → i < p ≤ i + length log.
Proof.
  revert i; induction log as [|o log IH]; intros i; simpl.
  { by intros ?%elem_of_nil. }
  destruct o; [rewrite elem_of_cons; intros [->|H]; [lia|]|intros H..];
    apply IH in H; lia.
Qed.

Lemma marks_lookup i log k :
  log !! k = Some Inserted →
  marks i log !! insertions (take k log) = Some (i + k + 1).
Proof.
  revert i k; induction log as [|o log IH]; intros i k; [done|].
  destruct k as [|k].
  { intros [= ->]. simpl. f_equal. lia. }
  intros H. apply (IH (S i)) in H. unfold insertions in *.
  change (take (S k) (o :: log)) with (o :: take k log).
  destruct o.
  - rewrite filter_cons_True; [|done]. simpl. rewrite H. f_equal. lia.
  - rewrite filter_cons_False; [|done]. simpl. rewrite H. f_equal. lia.
  - rewrite filter_cons_False; [|done]. simpl. rewrite H. f_equal. lia.
Qed.

Lemma marks_last_fmap {A} (f : nat → A) i log d :
  List.last (f <$> marks i log) d =
    match last_insertion log with 0 => d | S p => f (i + S p) end.
Proof.
  revert i d; induction log as [|o log IH]; intros i d; [done|].
  cbn [marks last_insertion]. destruct o.
  - rewrite fmap_cons, last_cons_default, IH, decide_True; [|done].
    destruct (last_insertion log); f_equal; lia.
  - rewrite IH, decide_False; [|done].
    destruct (last_insertion log); [done|f_equal; lia].
  - rewrite IH, decide_False; [|done].
    destruct (last_insertion log); [done|f_equal; lia].
Qed.

Lemma insertions_all_inserted log :
  Forall (λ o, o = Inserted) log →
  insertions log = length log ∧ last_insertion log = length log.
Proof.
  unfold insertions. induction 1 as [|o log -> _ [IH1 IH2]]; [done|].
  rewrite filter_cons_True; [|done]. simpl. rewrite IH1, IH2.
  split; [done|]. by destruct (length log).
Qed.

Lemma last_insertion_le log : last_insertion log ≤ length log.
Proof.
  induction log as [|o log IH]; simpl; [done|].
  destruct (last_insertion log); [case_decide|]; lia.
Qed.

Lemma raised_snoc_fatal log e : raised (log ++ [Fatal e]) = Some e.
Proof. unfold raised. by rewrite last_last. Qed.

Lemma last_insertion_snoc_fatal log e :
  last_insertion (log ++ [Fatal e]) = last_insertion log.
Proof. induction log as [|o log IH]; [done|]. simpl. by rewrite IH. Qed.

Lemma all_inserted log :
  (∀ e, Fatal e ∉ log) → skips log = 0 → Forall (λ o, o = Inserted) log.
Proof.
  unfold skips. induction log as [|o log IH]; intros Hf Hs; [done|].
  destruct o as [|e|e].
  - constructor; [done|]. rewrite filter_cons_False in Hs; [|done].
    apply IH; [|done]. intros e He. apply (Hf e). by right.
  - rewrite filter_cons_True in Hs; done.
  - exfalso. apply (Hf e). by left.
Qed.

Lemma insertions_skips log :
  (∀ e, Fatal e ∉ log) → insertions log + skips log = length log.
Proof.
  unfold insertions, skips. induction log as [|o log IH]; intros Hf; [done|].
  assert (∀ e, Fatal e ∉ log) as Hf' by (intros e He; apply (Hf e); by right).
  specialize (IH Hf'). destruct o as [|e|e].
  - rewrite filter_cons_True, (filter_cons_False (λ o, skipped o = true));
      [|done..]. simpl. lia.
  - rewrite filter_cons_False, (filter_cons_True (λ o, skipped o = true));
      [|done..]. simpl. lia.
  - exfalso. apply (Hf e). by left.
Qed.

Lemma fatal_split (log : list Outcome) k e :
  log !! k = Some (Fatal e) → length log = S k →
  log = take k log ++ [Fatal e].
Proof.
  intros Hk Hlen. rewrite <- (take_drop k log) at 1. f_equal.
  rewrite (drop_S _ _ _ Hk). rewrite drop_ge; [done|lia].
Qed.

(** ** The task and its log *)

Section Task.
Variable env : Environment.
Variables (company_ids : list Z) (src tgt : uuid).
Variables (op : Operation) (db : Session).

Let to_add := companies_to_add db company_ids tgt.
Let log := outcomes env tgt 0 to_add db.
Let op1 := set_status in_progress op.
Let op2 := set_total (length company_ids) op1.
Let op3 := set_total (length to_add) op2.
Let written := (λ p, set_progress p op3) <$> marks 0 log.
Let opl := List.last written op3.

Lemma task_body_query_error e :
  query_error env = Some e →
  task_body env company_ids src tgt op db =
    ([op1; op2; set_status failed op2;
      set_error_message e (set_status failed op2)], db).
Proof. unfold task_body. by intros ->. Qed.

Lemma task_body_log :
  query_error env = None →
  ∃ dbl,
    task_body env company_ids src tgt op db =
      ([op1; op2; op3] ++ written ++
         match raised log with
         | None => [set_status completed opl]
         | Some e =>
             [set_status failed opl;
              set_error_message e (set_status failed opl)]
         end, dbl).
Proof.
  unfold task_body. intros ->.
  destruct (insert_loop_log env tgt 0 to_add op3 db) as [dbl Hl].
  fold to_add op1 op2 op3. rewrite Hl. fold log. fold written. fold opl.
  exists dbl. by destruct (raised log).
Qed.

Lemma opl_progress :
  opl = match last_insertion log with
        | 0 => op3
        | S p => set_progress (S p) op3
        end.
Proof. unfold opl, written. by rewrite marks_last_fmap. Qed.

Lemma task_body_last :
  query_error env = None →
  List.last (task_body env company_ids src tgt op db).1 op =
    match raised log with
    | None => set_status completed opl
    | Some e => set_error_message e (set_status failed opl)
    end.
Proof.
  intros Hq. destruct (task_body_log Hq) as [dbl ->]. simpl fst.
  change ([op1; op2; op3] ++ ?l) with (op1 :: op2 :: op3 :: l).
  rewrite !last_cons_default. destruct (raised log) as [e|].
  - change [set_status failed opl; set_error_message e (set_status failed opl)]
      with ([set_status failed opl]
              ++ [set_error_message e (set_status failed opl)]).
    rewrite app_assoc. apply last_last.
  - apply last_last.
Qed.
End Task.

(** ** The registry during a run *)

Lemma task_observed env operation_id company_ids src tgt db
    (store : gmap string Operation) op :
  store !! operation_id = Some op →
  observed (add_companies_to_collection_task env operation_id company_ids
              src tgt db store)
  = (λ o, <[operation_id := o]> store)
      <$> (task_body env company_ids src tgt op db).1.
Proof.
  unfold add_companies_to_collection_task. intros ->.
  by destruct (task_body _ _ _ _ _ _).
Qed.

Lemma polls_task env operation_id company_ids src tgt db
    (store : gmap string Operation) op :
  store !! operation_id = Some op →
  polls operation_id store
    (add_companies_to_collection_task env operation_id company_ids
       src tgt db store)
  = Some <$> (op :: (task_body env company_ids src tgt op db).1).
Proof.
  intros Hop. unfold polls. rewrite (task_observed _ _ _ _ _ _ _ _ Hop).
  rewrite !fmap_cons. unfold get_operation_status at 1. rewrite Hop.
  f_equal. rewrite <- list_fmap_compose. apply list_fmap_ext.
  intros ? o _. simpl. unfold get_operation_status. apply lookup_insert_eq.
Qed.

Lemma final_store_task env operation_id company_ids src tgt db
    (store : gmap string Operation) op :
  store !! operation_id = Some op →
  get_operation_status operation_id
    (final_store store
       (add_companies_to_collection_task env operation_id company_ids
          src tgt db store))
  = Some (List.last (task_body env company_ids src tgt op db).1 op).
Proof.
  intros Hop. unfold final_store, get_operation_status.
  rewrite (task_observed _ _ _ _ _ _ _ _ Hop).
  destruct (task_body env company_ids src tgt op db).1 as [|o l]; [done|].
  rewrite fmap_cons, !last_cons_default.
  rewrite (last_fmap (λ o, <[operation_id := o]> store)).
  apply lookup_insert_eq.
Qed.

(** ** Fatal errors, skipped records and the progress counter *)

Lemma outcomes_take_no_fatal env tgt i ws db k e :
  outcomes env tgt i ws db !! k = Some (Fatal e) →
  ∀ e', Fatal e' ∉ take k (outcomes env tgt i ws db).
Proof.
  intros Hk e' [j Hj]%list_elem_of_lookup.
  apply lookup_take_Some in Hj as [Hj Hlt].
  apply outcomes_fatal_last in Hj, Hk. lia.
Qed.

Lemma raised_elem log e : raised log = Some e → Fatal e ∈ log.
Proof.
  unfold raised. destruct log as [|o log]; [done|].
  destruct (exists_last (l := o :: log)) as (l' & a & Heq); [done|].
  rewrite Heq, last_last. destruct a; [done..|]. intros [= ->].
  apply elem_of_app. right. by left.
Qed.

Lemma unique_violation_skipped :
  contains uq_company_collection unique_violation = true.
Proof. reflexivity. Qed.

Lemma outcomes_only_duplicates env tgt i ws db :
  (∀ k e, commit_error env k = Some e →
          contains uq_company_collection e = true) →
  ∀ e, Fatal e ∉ outcomes env tgt i ws db.
Proof.
  intros Henv. revert i db; induction ws as [|cid rest IH]; intros i db e; simpl.
  { apply not_elem_of_nil. }
  unfold add_commit. destruct (commit_error env i) as [e'|] eqn:He.
  - rewrite (Henv _ _ He). rewrite not_elem_of_cons. split; [done|apply IH].
  - case_decide.
    + rewrite unique_violation_skipped, not_elem_of_cons. split; [done|apply IH].
    + rewrite not_elem_of_cons. split; [done|apply IH].
Qed.

Lemma commit_others_grows rows db :
  collections (commit_others rows db) = collections db ∧
  (NoDup (associations db) → NoDup (associations (commit_others rows db))) ∧
  ∃ extra,
    associations (commit_others rows db) = associations db ++ extra ∧
    Forall (λ r, r ∈ rows) extra.
Proof.
  unfold commit_others. revert db.
  induction rows as [|row rows IH]; intros db; simpl.
  { split; [done|]. split; [done|]. exists []. by rewrite app_nil_r. }
  destruct (IH (insert_row db row)) as (Hc & Hnd & extra & He & Hall).
  assert (Forall (λ r, r ∈ row :: rows) extra) as Hall'.
  { eapply Forall_impl; [exact Hall|]. intros r Hr. by right. }
  unfold insert_row in *. case_decide as Hin.
  - split; [done|]. split; [done|]. by exists extra.
  - simpl in *. split; [done|]. split.
    + intros Hdb. apply Hnd. apply NoDup_app. split; [done|].
      split; [|apply NoDup_singleton].
      intros r Hr ->%list_elem_of_singleton. done.
    + exists (row :: extra). rewrite He, <- app_assoc. split; [done|].
      apply Forall_cons. split; [by left|done].
Qed.

(** What the loop does to the database, whatever the environment: the
    collections stay, the table keeps its rows in place and its uniqueness,
    and each row it gains comes from another session or puts a member of
    the working set in the target. *)
Lemma insert_loop_db env tgt i ws op db :
  collections (insert_loop env tgt i ws op db).1.2 = collections db ∧
  (NoDup (associations db) →
   NoDup (associations (insert_loop env tgt i ws op db).1.2)) ∧
  ∃ extra,
    associations (insert_loop env tgt i ws op db).1.2
      = associations db ++ extra ∧
    Forall (λ r, (∃ k, r ∈ concurrent_commits env k) ∨
                 (∃ c, c ∈ ws ∧ r = member c tgt)) extra.
Proof.
  revert i op db; induction ws as [|cid rest IH]; intros i op db.
  { simpl. split; [done|]. split; [done|]. exists []. by rewrite app_nil_r. }
  cbn [insert_loop].
  destruct (commit_others_grows (concurrent_commits env i) db)
    as (Hc1 & Hnd1 & extra1 & He1 & Hall1).
  set (db1 := commit_others (concurrent_commits env i) db) in *.
  assert (Forall (λ r, (∃ k, r ∈ concurrent_commits env k) ∨
                       (∃ c, c ∈ cid :: rest ∧ r = member c tgt)) extra1)
    as Hall1'.
  { eapply Forall_impl; [exact Hall1|]. intros r Hr. left. by exists i. }
  assert (∀ extra,
            Forall (λ r, (∃ k, r ∈ concurrent_commits env k) ∨
                         (∃ c, c ∈ rest ∧ r = member c tgt)) extra →
            Forall (λ r, (∃ k, r ∈ concurrent_commits env k) ∨
                         (∃ c, c ∈ cid :: rest ∧ r = member c tgt)) extra)
    as Hweak.
  { intros extra Hall. eapply Forall_impl; [exact Hall|].
    intros r [?|(c & Hc & ->)]; [by left|]. right. exists c. split; [by right|done]. }
  unfold add_commit. destruct (commit_error env i) as [e|].
  - destruct (contains uq_company_collection e).
    + destruct (IH (S i) op db1) as (Hc & Hnd & extra & He & Hall).
      split; [congruence|]. split; [by intros ?; apply Hnd, Hnd1|].
      exists (extra1 ++ extra). rewrite He, He1, <- app_assoc.
      split; [done|]. apply Forall_app. split; [done|by apply Hweak].
    + simpl. split; [done|]. split; [done|]. by exists extra1.
  - case_decide as Hin.
    + rewrite unique_violation_skipped.
      destruct (IH (S i) op db1) as (Hc & Hnd & extra & He & Hall).
      split; [congruence|]. split; [by intros ?; apply Hnd, Hnd1|].
      exists (extra1 ++ extra). rewrite He, He1, <- app_assoc.
      split; [done|]. apply Forall_app. split; [done|by apply Hweak].
    + set (db2 := with_associations _ db1).
      destruct (IH (S i) (set_progress (i + 1) op) db2)
        as (Hc & Hnd & extra & He & Hall).
      destruct (insert_loop env tgt (S i) rest _ db2) as [[[w o] d] x].
      simpl in *. split; [congruence|]. split.
      * intros Hdb. apply Hnd. apply NoDup_app. split; [by apply Hnd1|].
        split; [|apply NoDup_singleton].
        intros r Hr ->%list_elem_of_singleton. done.
      * exists (extra1 ++ member cid tgt :: extra).
        rewrite He, He1, <- !app_assoc. split; [done|].
        apply Forall_app. split; [done|]. apply Forall_cons. split.
        -- right. exists cid. split; [by left|done].
        -- by apply Hweak.
Qed.

Lemma task_final_db env operation_id company_ids src tgt db
    (store : gmap string Operation) op :
  store !! operation_id = Some op →
  final_db (add_companies_to_collection_task env operation_id company_ids
              src tgt db store)
  = (task_body env company_ids src tgt op db).2.
Proof.
  unfold add_companies_to_collection_task. intros ->.
  by destruct (task_body _ _ _ _ _ _).
Qed.

Lemma task_body_db env company_ids src tgt op db :
  query_error env = None →
  (task_body env company_ids src tgt op db).2 =
  (insert_loop env tgt 0 (companies_to_add db company_ids tgt)
     (set_total (length (companies_to_add db company_ids tgt))
        (set_total (length company_ids) (set_status in_progress op)))
     db).1.2.
Proof.
  unfold task_body. intros ->.
  destruct (insert_loop _ _ _ _ _ _) as [[[w o] d] [e|]]; done.
Qed.

Lemma insert_loop_op_indep env tgt i ws op op' db :
  (insert_loop env tgt i ws op db).1.2 = (insert_loop env tgt i ws op' db).1.2 ∧
  (insert_loop env tgt i ws op db).2 = (insert_loop env tgt i ws op' db).2.
Proof.
  revert i op op' db; induction ws as [|cid rest IH]; intros i op op' db.
  { done. }
  cbn [insert_loop].
  destruct (add_commit env i _ _) as [db2|e].
  - specialize (IH (S i) (set_progress (i + 1) op) (set_progress (i + 1) op') db2).
    destruct (insert_loop env tgt (S i) rest (set_progress (i + 1) op) db2)
      as [[[w o] d] x].
    destruct (insert_loop env tgt (S i) rest (set_progress (i + 1) op') db2)
      as [[[w' o'] d'] x'].
    exact IH.
  - destruct (contains uq_company_collection e); [apply IH|done].
Qed.

(** A loop that stops on the record at position [k]: it leaves the
    database that the loop over the records before it leaves, with what the
    other sessions committed just before the commit that raised. *)
Lemma insert_loop_fatal env tgt i ws op db k e :
  outcomes env tgt i ws db !! k = Some (Fatal e) →
  (insert_loop env tgt i ws op db).1.2 =
    commit_others (concurrent_commits env (i + k))
      (insert_loop env tgt i (take k ws) op db).1.2 ∧
  (insert_loop env tgt i ws op db).2 = Some e ∧
  (insert_loop env tgt i (take k ws) op db).2 = None ∧
  ∃ cid,
    ws !! k = Some cid ∧
    add_commit env (i + k) (member cid tgt)
      (commit_others (concurrent_commits env (i + k))
         (insert_loop env tgt i (take k ws) op db).1.2) = Raised e ∧
    contains uq_company_collection e = false.
Proof.
  revert i op db k; induction ws as [|cid rest IH]; intros i op db k.
  { simpl. by rewrite lookup_nil. }
  cbn [outcomes insert_loop]. fold (member cid tgt).
  destruct (add_commit env i (member cid tgt)
              (commit_others (concurrent_commits env i) db)) as [db2|e'] eqn:Hc.
  - destruct k as [|k]; [done|]. simpl lookup. intros Hk.
    destruct (IH (S i) (set_progress (i + 1) op) db2 k Hk)
      as (Hdb & Hx & Hnone & c & Hws & Hadd & Hcon).
    change (take (S k) (cid :: rest)) with (cid :: take k rest).
    cbn [insert_loop]. fold (member cid tgt). rewrite Hc.
    replace (i + S k) with (S i + k) by lia.
    destruct (insert_loop env tgt (S i) rest (set_progress (i + 1) op) db2)
      as [[[w o] d] x].
    destruct (insert_loop env tgt (S i) (take k rest)
                (set_progress (i + 1) op) db2) as [[[w' o'] d'] x'].
    simpl in *. split; [done|]. split; [done|]. split; [done|]. by exists c.
  - destruct (contains uq_company_collection e') eqn:Hcon'.
    + destruct k as [|k]; [done|]. simpl lookup. intros Hk.
      destruct (IH (S i) op (commit_others (concurrent_commits env i) db) k Hk)
        as (Hdb & Hx & Hnone & c & Hws & Hadd & Hcon).
      change (take (S k) (cid :: rest)) with (cid :: take k rest).
      cbn [insert_loop]. fold (member cid tgt). rewrite Hc, Hcon'.
      replace (i + S k) with (S i + k) by lia.
      split; [done|]. split; [done|]. split; [done|]. by exists c.
    + destruct k as [|k]; [|by rewrite lookup_cons, lookup_nil].
      intros [= <-]. simpl. rewrite Nat.add_0_r.
      split; [done|]. split; [done|]. split; [done|]. by exists cid.
Qed.

Lemma marks_length i log : length (marks i log) = insertions log.
Proof.
  unfold insertions. revert i; induction log as [|o log IH]; intros i; [done|].
  destruct o; cbn [marks].
  - rewrite filter_cons_True; [|done]. simpl. by rewrite IH.
  - rewrite filter_cons_False; [|done]. apply IH.
  - rewrite filter_cons_False; [|done]. apply IH.
Qed.

Lemma insertions_snoc_fatal log e :
  insertions (log ++ [Fatal e]) = insertions log.
Proof.
  unfold insertions. rewrite filter_app, length_app.
  rewrite filter_cons_False; [|done]. simpl. lia.
Qed.

(** C1 (amended).  When the commit of the record at position [i] of the
    working set raises an exception that is not a duplicate, the loop stops
    there: the task leaves the database that the loop over the records
    before [i] leaves (with what other sessions committed just before that
    commit), so the rows it gained come from other sessions or from members
    before [i], and it makes no write to the registry beyond those of the
    commits that went through before [i] and the two that mark the failure.
    The operation ends failed, with the text of the exception as its error
    message, whatever that text is, and with the progress written by the
    last commit that went through before [i]: one plus its position, and
    the value the operation started with when there is none.  That is the
    number of commits that went through before [i] when none of the records
    before [i] was skipped and the operation started at 0. *)
Theorem fatal_error_final_state env operation_id company_ids src tgt db
    (store : gmap string Operation) op i e :
  let ws := companies_to_add db company_ids tgt in
  let log := outcomes env tgt 0 ws db in
  let run := add_companies_to_collection_task env operation_id company_ids
               src tgt db store in
  store !! operation_id = Some op →
  query_error env = None →
  log !! i = Some (Fatal e) →
  (length log = S i ∧
   (∃ cid, ws !! i = Some cid ∧
           add_commit env i (member cid tgt)
             (commit_others (concurrent_commits env i)
                (insert_loop env tgt 0 (take i ws) op db).1.2) = Raised e ∧
           contains uq_company_collection e = false) ∧
   final_db run =
     commit_others (concurrent_commits env i)
       (insert_loop env tgt 0 (take i ws) op db).1.2 ∧
   (∃ extra,
      associations (final_db run) = associations db ++ extra ∧
      Forall (λ r, (∃ k, r ∈ concurrent_commits env k) ∨
                   (∃ c, c ∈ take i ws ∧ r = member c tgt)) extra) ∧
   length (observed run) = 3 + insertions (take i log) + 2) ∧
  ∃ o, get_operation_status operation_id (final_store store run) = Some o ∧
       status o = failed ∧
       error_message o = Some e ∧
       progress o = match last_insertion (take i log) with
                    | 0 => progress op
                    | S p => S p
                    end ∧
       (skips (take i log) = 0 → progress op = 0 →
        progress o = insertions (take i log)).
Proof.
  intros ws log run Hop Hq Hi.
  pose proof (outcomes_fatal_last _ _ _ _ _ _ _ Hi) as Hlen.
  pose proof (fatal_split _ _ _ Hi Hlen) as Hsplit.
  assert (raised log = Some e) as Hr.
  { rewrite Hsplit. apply raised_snoc_fatal. }
  assert (last_insertion log = last_insertion (take i log)) as Hl.
  { rewrite Hsplit at 1. apply last_insertion_snoc_fatal. }
  assert (insertions log = insertions (take i log)) as Hn.
  { rewrite Hsplit at 1. apply insertions_snoc_fatal. }
  split.
  - split; [done|].
    destruct (insert_loop_fatal env tgt 0 ws op db i e Hi)
      as (Hdb & _ & _ & cid & Hws & Hadd & Hcon).
    simpl in Hdb, Hadd.
    assert (final_db run =
              commit_others (concurrent_commits env i)
                (insert_loop env tgt 0 (take i ws) op db).1.2) as Hfin.
    { unfold run. rewrite (task_final_db _ _ _ _ _ _ _ _ Hop), task_body_db;
        [|done]. fold ws. rewrite <- Hdb. apply insert_loop_op_indep. }
    split; [by exists cid|]. split; [exact Hfin|]. split.
    + rewrite Hfin.
      destruct (insert_loop_db env tgt 0 (take i ws) op db)
        as (_ & _ & extra0 & He0 & Hall0).
      destruct (commit_others_grows (concurrent_commits env i)
                  (insert_loop env tgt 0 (take i ws) op db).1.2)
        as (_ & _ & extra1 & He1 & Hall1).
      exists (extra0 ++ extra1). rewrite He1, He0, <- app_assoc.
      split; [done|]. apply Forall_app. split; [done|].
      eapply Forall_impl; [exact Hall1|]. intros r Hin. left. by exists i.
    + unfold run. rewrite (task_observed _ _ _ _ _ _ _ _ Hop), length_fmap.
      destruct (task_body_log env company_ids src tgt op db Hq) as [dbl ->].
      simpl fst. fold ws log. rewrite Hr. simpl.
      rewrite length_app, length_fmap, marks_length, Hn. simpl. lia.
  - unfold run.
    rewrite (final_store_task _ _ _ _ _ _ _ _ Hop),
      (task_body_last _ _ _ _ _ _ Hq).
    rewrite opl_progress. fold ws log. rewrite Hr, Hl.
    eexists; split; [reflexivity|].
    assert (skips (take i log) = 0 →
            insertions (take i log) = last_insertion (take i log)) as Hins.
    { intros Hs. destruct (insertions_all_inserted (take i log)) as [-> ->];
        [|done].
      apply all_inserted; [|done]. by eapply outcomes_take_no_fatal. }
    destruct (last_insertion (take i log)) as [|p]; simpl.
    + repeat split. intros Hs ->. by rewrite Hins.
    + repeat split. intros Hs _. by rewrite Hins.
Qed.

(** C9.  The write that follows the commit of the record at position [i]
    of the working set sets progress to [i + 1]: the commits that went
    through before it, the records that were skipped before it, and one. *)
Theorem progress_is_position env operation_id company_ids src tgt db
    (store : gmap string Operation) op i :
  let log := outcomes env tgt 0 (companies_to_add db company_ids tgt) db in
  let run := add_companies_to_collection_task env operation_id company_ids
               src tgt db store in
  store !! operation_id = Some op →
  query_error env = None →
  log !! i = Some Inserted →
  ∃ o, polls operation_id store run !! (4 + insertions (take i log))
         = Some (Some o) ∧
       progress o = i + 1 ∧
       progress o = insertions (take i log) + skips (take i log) + 1.
Proof.
  intros log run Hop Hq Hi. unfold run.
  rewrite (polls_task _ _ _ _ _ _ _ _ Hop).
  destruct (task_body_log env company_ids src tgt op db Hq) as [dbl ->].
  simpl fst. fold log.
  pose proof (marks_lookup 0 _ _ Hi) as Hm.
  eexists. split.
  - rewrite list_lookup_fmap. simpl.
    rewrite lookup_app_l.
    2:{ rewrite length_fmap. by eapply lookup_lt_Some. }
    rewrite list_lookup_fmap, Hm. reflexivity.
  - simpl. split; [lia|].
    assert (length (take i log) = i) as Hlen.
    { rewrite length_take. apply lookup_lt_Some in Hi. lia. }
    rewrite insertions_skips; [lia|].
    intros e [j Hj]%list_elem_of_lookup.
    apply lookup_take_Some in Hj as [Hj Hlt].
    apply outcomes_fatal_last in Hj. apply lookup_lt_Some in Hi.
    unfold log in *. lia.
Qed.

(** C4.  A commit whose exception names the uniqueness constraint is not
    fatal: the loop goes on with the next member, from the same entry of the
    registry (no failed status, no error message, no progress written for
    that record) and the database rolled back.  So when uniqueness
    violations are the only failures of a run, every member is attempted,
    no poll ever sees a failed status or an error message, and the
    operation ends completed. *)
Theorem duplicate_is_not_fatal :
  (∀ env tgt i cid rest op db e,
     add_commit env i (member cid tgt)
       (commit_others (concurrent_commits env i) db) = Raised e →
     contains uq_company_collection e = true →
     insert_loop env tgt i (cid :: rest) op db =
       insert_loop env tgt (S i) rest op
         (commit_others (concurrent_commits env i) db)) ∧
  (∀ env operation_id company_ids src tgt db (store : gmap string Operation) n,
     let ws := companies_to_add db company_ids tgt in
     let run := add_companies_to_collection_task env operation_id company_ids
                  src tgt db store in
     store !! operation_id = Some (new_operation operation_id n) →
     query_error env = None →
     (∀ k e, commit_error env k = Some e →
             contains uq_company_collection e = true) →
     length (outcomes env tgt 0 ws db) = length ws ∧
     (∀ o, Some o ∈ polls operation_id store run →
           status o ≠ failed ∧ error_message o = None) ∧
     (∃ o, get_operation_status operation_id (final_store store run) = Some o ∧
           status o = completed)).
Proof.
  split.
  - intros env tgt i cid rest op db e Hc He. simpl.
    unfold member in Hc. by rewrite Hc, He.
  - intros env operation_id company_ids src tgt db store n ws run Hop Hq Henv.
    pose proof (outcomes_only_duplicates env tgt 0 ws db Henv) as Hnf.
    assert (raised (outcomes env tgt 0 ws db) = None) as Hr.
    { destruct (raised _) as [e|] eqn:Hr; [|done].
      apply raised_elem in Hr. by apply Hnf in Hr. }
    split; [by apply outcomes_no_fatal_length|]. unfold run. split.
    + rewrite (polls_task _ _ _ _ _ _ _ _ Hop).
      destruct (task_body_log env company_ids src tgt
                  (new_operation operation_id n) db Hq) as [dbl ->].
      simpl fst. fold ws. rewrite Hr. intros o Ho.
      apply list_elem_of_fmap in Ho as (o' & [= <-] & Ho).
      rewrite !elem_of_cons, !elem_of_app, list_elem_of_fmap in Ho.
      destruct Ho as [->|[->|[->|[->|[(p & -> & _)|Ho]]]]]; [done..|].
      apply list_elem_of_singleton in Ho as ->. simpl.
      rewrite marks_last_fmap. by destruct (last_insertion _).
    + rewrite (final_store_task _ _ _ _ _ _ _ _ Hop).
      rewrite (task_body_last _ _ _ _ _ _ Hq). fold ws. rewrite Hr.
      by eexists.
Qed.

(** C1, as stated, fails: companies 1, 2 and 3 are asked for, another
    session adds company 1 to the target first, so the worker skips it,
    inserts company 2 and writes progress 2, and the commit of company 3
    raises an exception whose text is empty.  The operation is failed with
    progress 2 after a single insertion, and its error message is the empty
    text. *)
Lemma fatal_progress_counterexample :
  let log :=
    outcomes mute_env T_id 0 (companies_to_add race_db [1; 2; 3]%Z T_id)
      race_db in
  let run :=
    add_companies_to_collection_task mute_env "op-1" [1; 2; 3]%Z S_id T_id
      race_db race_store in
  store_after
    (add_companies_to_collection "op-1" S_id T_id [1; 2; 3]%Z race_db ∅)
    = race_store ∧
  log = [Skipped unique_violation; Inserted; Fatal ""] ∧
  insertions (take 2 log) = 1 ∧
  ∃ o, get_operation_status "op-1" (final_store race_store run) = Some o ∧
       status o = failed ∧
       error_message o = Some ""%string ∧
       progress o = 2 ∧
       progress o ≠ insertions (take 2 log).
Proof.
  repeat split; try (vm_compute; reflexivity).
  eexists. split; [vm_compute; reflexivity|]. repeat split. vm_compute. lia.
Qed.

Lemma fatal_error_final_state_witness :
  final_db (add_companies_to_collection_task lossy_env "op-1" [1; 2; 3]%Z
              S_id T_id race_db race_store)
    = with_associations (associations race_db ++ [member 1 T_id]) race_db ∧
  ∃ o, get_operation_status "op-1"
         (final_store race_store
            (add_companies_to_collection_task lossy_env "op-1" [1; 2; 3]%Z
               S_id T_id race_db race_store)) = Some o ∧
       status o = failed ∧
       error_message o = Some "connection lost"%string ∧
       progress o = 1.
Proof.
  destruct (fatal_error_final_state lossy_env "op-1" [1; 2; 3]%Z S_id T_id
              race_db race_store (new_operation "op-1" 3) 1 "connection lost")
    as ((_ & _ & Hdb & _ & _) & o & Ho & Hs & He & Hp & _); [reflexivity..|].
  split; [exact Hdb|].
  exists o. repeat split; [exact Ho|exact Hs|exact He|exact Hp].
Defined.

Lemma progress_is_position_witness :
  ∃ o, polls "op-1" race_store
         (add_companies_to_collection_task race_env "op-1" [1; 2; 3]%Z
            S_id T_id race_db race_store) !! 4 = Some (Some o) ∧
       progress o = 2.
Proof.
  destruct (progress_is_position race_env "op-1" [1; 2; 3]%Z S_id T_id
              race_db race_store (new_operation "op-1" 3) 1)
    as (o & Ho & Hp & _); [reflexivity..|].
  exists o. split; [exact Ho|exact Hp].
Defined.

Lemma duplicate_is_not_fatal_witness :
  insert_loop busy_env T_id 0 [1; 2; 3]%Z (new_operation "op-1" 3) race_db =
  insert_loop busy_env T_id 1 [2; 3]%Z (new_operation "op-1" 3)
    (commit_others [member 1 T_id] race_db) ∧
  ∃ o, get_operation_status "op-1"
         (final_store race_store
            (add_companies_to_collection_task busy_env "op-1" [1; 2; 3]%Z
               S_id T_id race_db race_store)) = Some o ∧
       status o = completed.
Proof.
  destruct duplicate_is_not_fatal as [Hstep Hrun]. split.
  - apply (Hstep busy_env T_id 0 1%Z [2; 3]%Z (new_operation "op-1" 3) race_db
             unique_violation); reflexivity.
  - destruct (Hrun busy_env "op-1"%string [1; 2; 3]%Z S_id T_id race_db
                race_store 3) as (_ & _ & Hfin);
      [reflexivity|reflexivity|intros k e He; discriminate He|].
    exact Hfin.
Defined.

(** ** Queries *)

Lemma filter_ext_elem {A} (P Q : A → Prop) `{!∀ x, Decision (P x)}
    `{!∀ x, Decision (Q x)} (l : list A) :
  (∀ x, x ∈ l → P x ↔ Q x) → filter P l = filter Q l.
Proof.
  induction l as [|x l IH]; intros Hext; [done|].
  assert (filter P l = filter Q l) as IH'.
  { apply IH. intros y Hy. apply Hext. by right. }
  destruct (decide (P x)) as [HP|HP].
  - rewrite !filter_cons_True; [by rewrite IH'|by apply Hext; [left|]|done].
  - rewrite !filter_cons_False; [done| |done].
    intros HQ. apply HP. apply Hext; [by left|done].
Qed.

Lemma length_filter_complement {A} (P : A → Prop) `{!∀ x, Decision (P x)}
    (l : list A) :
  length (filter (λ x, ¬ P x) l) = length l - length (filter P l).
Proof.
  pose proof (length_filter P l) as Hle.
  pose proof (filter_app_complement P l) as Hp.
  apply Permutation_length in Hp. rewrite length_app in Hp. lia.
Qed.

Lemma elem_of_query_in db ids k a :
  a ∈ query_in db ids k ↔
  company_id a ∈ ids ∧ collection_id a = k ∧ a ∈ associations db.
Proof. unfold query_in. rewrite list_elem_of_filter. tauto. Qed.

Lemma elem_of_company_id_set_query_in db ids k c :
  c ∈ company_id_set (query_in db ids k) ↔
  c ∈ ids ∧ member c k ∈ associations db.
Proof.
  unfold company_id_set. rewrite elem_of_list_to_set, list_elem_of_fmap.
  split.
  - intros ([c' k'] & -> & (Hc & Hk & Ha)%elem_of_query_in).
    simpl in *. subst k'. done.
  - intros [Hc Ha]. exists (member c k). split; [done|].
    apply elem_of_query_in. done.
Qed.

Lemma companies_to_add_alt db ids tgt :
  companies_to_add db ids tgt =
  filter (λ c, member c tgt ∉ associations db) ids.
Proof.
  unfold companies_to_add. apply filter_ext_elem. intros c Hc.
  rewrite elem_of_company_id_set_query_in. tauto.
Qed.

Lemma companies_to_add_length db ids tgt :
  length (companies_to_add db ids tgt) =
  length ids - length (filter (λ c, member c tgt ∈ associations db) ids).
Proof. rewrite companies_to_add_alt. apply length_filter_complement. Qed.

(** ** What the handlers register *)

Lemma handle_scheduled new_uuid r db (store : gmap string Operation) t :
  scheduled (handle new_uuid r db store) = Some t →
  task_operation_id t = new_uuid ∧
  store_after (handle new_uuid r db store) !! new_uuid =
    Some (new_operation new_uuid (length (task_company_ids t))).
Proof.
  destruct r as [s g ids|s g]; simpl;
    unfold add_companies_to_collection, add_all_companies_to_collection;
    destruct (query_get db s), (query_get db g); try done.
  - destruct ids as [|cid ids]; [|case_decide; [done|]];
      simpl; intros [= <-]; simpl; by rewrite lookup_insert_eq.
  - simpl. intros [= <-]. simpl. by rewrite lookup_insert_eq.
Qed.

(** ** The shape of a run *)

Section Shape.
Variable env : Environment.
Variables (company_ids : list Z) (src tgt : uuid).
Variables (op : Operation) (db : Session).

Let n := length (companies_to_add db company_ids tgt).

(** After its first two writes the task only writes states whose total is
    the size of the working set, and whose progress is the one it found
    or at most that size. *)
Lemma task_body_shape :
  ∃ rest,
    (task_body env company_ids src tgt op db).1 =
      [set_status in_progress op;
       set_total (length company_ids) (set_status in_progress op)] ++ rest ∧
    Forall (λ o, progress o = progress op ∨ 0 < progress o ≤ total o) rest ∧
    (query_error env = None →
     Forall (λ o, total o = n) rest ∧
     ∃ rest', rest =
       set_total n (set_total (length company_ids)
                      (set_status in_progress op)) :: rest') ∧
    (query_error env ≠ None → Forall (λ o, progress o = progress op) rest).
Proof.
  destruct (query_error env) as [e|] eqn:Hq.
  - rewrite (task_body_query_error _ _ _ _ _ _ _ Hq). simpl.
    eexists. split; [reflexivity|]. split; [|split; [done|]].
    + repeat (apply Forall_cons; split; [by left|]). apply Forall_nil_2.
    + intros _. repeat (apply Forall_cons; split; [done|]). apply Forall_nil_2.
  - destruct (task_body_log env company_ids src tgt op db Hq) as [dbl ->].
    simpl fst. fold n.
    set (op3 := set_total n _).
    set (log := outcomes _ _ _ _ _).
    set (written := (λ p, set_progress p op3) <$> marks 0 log).
    assert (length log ≤ n) as Hlog by apply outcomes_length.
    assert (Forall (λ o, total o = n ∧
              (progress o = progress op ∨ 0 < progress o ≤ total o)) written)
      as Hw.
    { apply Forall_fmap, Forall_forall. intros p Hp%marks_bound. simpl.
      split; [done|]. right. lia. }
    assert (total (List.last written op3) = n ∧
            (progress (List.last written op3) = progress op ∨
             0 < progress (List.last written op3)
               ≤ total (List.last written op3))) as Hl.
    { unfold written. rewrite marks_last_fmap.
      pose proof (last_insertion_le log).
      destruct (last_insertion log); simpl; [by auto|].
      split; [done|]. right. lia. }
    exists (op3 :: written ++
              match raised log with
              | Some e => [set_status failed (List.last written op3);
                           set_error_message e
                             (set_status failed (List.last written op3))]
              | None => [set_status completed (List.last written op3)]
              end).
    split; [done|].
    assert (Forall (λ o, total o = n ∧
              (progress o = progress op ∨ 0 < progress o ≤ total o))
              (op3 :: written ++
                 match raised log with
                 | Some e => [set_status failed (List.last written op3);
                              set_error_message e
                                (set_status failed (List.last written op3))]
                 | None => [set_status completed (List.last written op3)]
                 end)) as Hall.
    { constructor; [split; [done|by left]|].
      apply Forall_app. split; [done|].
      destruct (raised log);
        repeat (apply Forall_cons; split; [exact Hl|]); apply Forall_nil_2. }
    split; [|split; [|done]].
    + eapply Forall_impl; [exact Hall|]. by intros o [_ ?].
    + intros _. split; [|by eexists].
      eapply Forall_impl; [exact Hall|]. by intros o [? _].
Qed.
End Shape.

(** ** Invariants of a dispatched operation *)

(** C2.  Whatever the environment does, and whichever other operations
    were registered before the task runs, every state that a poll of a
    dispatched operation can see, from its registration to the last write of
    its task, has its progress at most its total. *)
Theorem progress_le_total new_uuid r db (store store' : gmap string Operation)
    t env db' :
  let h := handle new_uuid r db store in
  scheduled h = Some t →
  store' !! new_uuid = store_after h !! new_uuid →
  ∀ o, Some o ∈ polls new_uuid store' (run_task env t db' store') →
       progress o ≤ total o.
Proof.
  intros h Ht Hsame o Ho.
  destruct (handle_scheduled _ _ _ _ _ Ht) as [Hid Hop].
  fold h in Hop. rewrite <- Hsame in Hop.
  unfold run_task in Ho. rewrite Hid in Ho.
  rewrite (polls_task _ _ _ _ _ _ _ _ Hop) in Ho.
  apply list_elem_of_fmap in Ho as (o' & [= <-] & Ho).
  destruct (task_body_shape env (task_company_ids t)
              (task_source_collection_id t) (task_target_collection_id t)
              (new_operation new_uuid (length (task_company_ids t))) db')
    as (rest & Hshape & Hrest & _).
  rewrite Hshape in Ho. simpl in Ho. rewrite !elem_of_cons in Ho.
  destruct Ho as [->|[->|[->|Ho]]]; simpl; [lia..|].
  rewrite Forall_forall in Hrest.
  destruct (Hrest _ Ho) as [Hz|?]; simpl in *; lia.
Qed.

(** C3.  For a dispatched operation over N requested ids of which M are in
    the target when the task asks, every state with progress above 0 has
    total N - M; progress is 0 up to the third write of the task; and when
    the membership query answers, that write sets total to N - M and every
    later state keeps that total. *)
Theorem total_is_working_set_size new_uuid r db
    (store store' : gmap string Operation) t env db' :
  let h := handle new_uuid r db store in
  let ps := polls new_uuid store' (run_task env t db' store') in
  let N := length (task_company_ids t) in
  let M := length (filter (λ c, member c (task_target_collection_id t)
                                  ∈ associations db') (task_company_ids t)) in
  scheduled h = Some t →
  store' !! new_uuid = store_after h !! new_uuid →
  (∀ o, Some o ∈ ps → 0 < progress o → total o = N - M) ∧
  (∀ k o, k ≤ 3 → ps !! k = Some (Some o) → progress o = 0) ∧
  (query_error env = None →
   (∃ o, ps !! 3 = Some (Some o) ∧ total o = N - M) ∧
   ∀ k o, 3 ≤ k → ps !! k = Some (Some o) → total o = N - M).
Proof.
  intros h ps N M Ht Hsame.
  destruct (handle_scheduled _ _ _ _ _ Ht) as [Hid Hop].
  fold h in Hop. rewrite <- Hsame in Hop. unfold ps, run_task. rewrite Hid.
  rewrite (polls_task _ _ _ _ _ _ _ _ Hop).
  destruct (task_body_shape env (task_company_ids t)
              (task_source_collection_id t) (task_target_collection_id t)
              (new_operation new_uuid (length (task_company_ids t))) db')
    as (rest & -> & Hprog & Hok & Herr).
  rewrite companies_to_add_length in Hok. fold N M in Hok. simpl app.
  split; [|split].
  - intros o Ho Hpos.
    apply list_elem_of_fmap in Ho as (o' & [= <-] & Ho).
    rewrite !elem_of_cons in Ho.
    destruct Ho as [->|[->|[->|Ho]]]; simpl in Hpos; [lia..|].
    destruct (query_error env) as [e|] eqn:Hq.
    + assert (Forall (λ o, progress o = 0) rest) as Hz by by apply Herr.
      rewrite Forall_forall in Hz. specialize (Hz _ Ho). lia.
    + destruct Hok as [Htot _]; [done|].
      rewrite Forall_forall in Htot. by apply Htot.
  - intros k o Hk Hlk. rewrite list_lookup_fmap in Hlk.
    destruct k as [|[|[|k]]]; simpl in Hlk; try by (injection Hlk as <-).
    assert (k = 0) as -> by lia.
    destruct (rest !! 0) as [o'|] eqn:Hr; simpl in Hlk; [|done].
    injection Hlk as <-.
    destruct (query_error env) as [e|] eqn:Hq.
    + assert (Forall (λ o, progress o = 0) rest) as Hz by by apply Herr.
      rewrite Forall_lookup in Hz. by eapply Hz.
    + destruct Hok as [_ [rest' ->]]; [done|]. by injection Hr as <-.
  - intros Hq. destruct (Hok Hq) as [Htot [rest' ->]]. split.
    + eexists. split; [reflexivity|]. simpl.
      apply Forall_cons in Htot as [Htot _]. exact Htot.
    + intros k o Hk Hlk. rewrite list_lookup_fmap in Hlk.
      destruct k as [|[|[|k]]]; [lia..|]. simpl in Hlk.
      destruct ((_ :: rest') !! k) as [o'|] eqn:Hr; simpl in Hlk; [|done].
      injection Hlk as <-. rewrite Forall_lookup in Htot. by eapply Htot.
Qed.

(** ** Terminal states *)

Lemma task_body_phases env company_ids src tgt op db :
  running op →
  ∃ before tail,
    op :: (task_body env company_ids src tgt op db).1 = before ++ tail ∧
    Forall running before ∧ ending tail.
Proof.
  intros Hop. assert (error_message op = None) as Herr by apply Hop.
  destruct (query_error env) as [e|] eqn:Hq.
  - rewrite (task_body_query_error _ _ _ _ _ _ _ Hq). simpl.
    set (op2 := set_total _ _).
    exists [op; set_status in_progress op; op2],
           [set_status failed op2; set_error_message e (set_status failed op2)].
    assert (running (set_status in_progress op)) as H1
      by (split; [by right|done]).
    assert (running op2) as H2 by (split; [by right|done]).
    split; [done|]. split.
    + repeat (apply Forall_cons; split; [assumption|]). apply Forall_nil_2.
    + right. eexists _, e. repeat split. done.
  - destruct (task_body_log env company_ids src tgt op db Hq) as [dbl ->].
    simpl fst.
    set (op3 := set_total (length (companies_to_add db company_ids tgt)) _).
    set (log := outcomes _ _ _ _ _).
    set (written := (λ p, set_progress p op3) <$> marks 0 log).
    assert (running (set_status in_progress op)) as H1
      by (split; [by right|done]).
    assert (running (set_total (length company_ids)
                       (set_status in_progress op))) as H2
      by (split; [by right|done]).
    assert (running op3) as H3 by (split; [by right|done]).
    assert (Forall running written) as Hw.
    { apply Forall_fmap, Forall_forall. by intros p _. }
    assert (running (List.last written op3)) as Hl.
    { unfold written. rewrite marks_last_fmap.
      by destruct (last_insertion log). }
    exists ([op; set_status in_progress op;
             set_total (length company_ids) (set_status in_progress op); op3]
            ++ written).
    eexists. split; [rewrite <- app_assoc; reflexivity|]. split.
    + apply Forall_app. split; [|done].
      repeat (apply Forall_cons; split; [assumption|]). apply Forall_nil_2.
    + destruct (raised log) as [e|].
      * right. eexists _, e. repeat split. apply Hl.
      * left. eexists. repeat split. apply Hl.
Qed.

Lemma phases_stable (before tail : list Operation) j k oj ok :
  Forall running before → ending tail →
  j ≤ k →
  (before ++ tail) !! j = Some oj →
  (before ++ tail) !! k = Some ok →
  (status oj = completed ∨ status oj = failed → status ok = status oj) ∧
  (∀ m, error_message oj = Some m →
        error_message ok = Some m ∧ status oj = failed).
Proof.
  intros Hb Ht Hjk Hj Hk.
  apply lookup_app_Some in Hj as [Hj|[Hlen Hj]].
  { rewrite Forall_lookup in Hb. destruct (Hb _ _ Hj) as [[Hs|Hs] He].
    - split; [intros [?|?]; congruence|intros m; congruence].
    - split; [intros [?|?]; congruence|intros m; congruence]. }
  apply lookup_app_Some in Hk as [Hk|[_ Hk]].
  { apply lookup_lt_Some in Hk. lia. }
  assert (j - length before ≤ k - length before) as Hle by lia.
  revert Hj Hk Hle. generalize (j - length before) (k - length before).
  intros j' k' Hj Hk Hle.
  destruct Ht as [(c & -> & Hs & He)|(f & e & -> & Hs & He)].
  - destruct j' as [|j']; [|done]. destruct k' as [|k']; [|done].
    simpl in *. injection Hj as <-. injection Hk as <-.
    split; [done|intros m; congruence].
  - destruct j' as [|[|j']], k' as [|[|k']]; simpl in *; try done; try lia;
      injection Hj as <-; injection Hk as <-; simpl;
      (split; [done|intros m; try congruence]).
    intros [= <-]. done.
Qed.

(** C7.  Among the states that polls of a dispatched operation can see, in
    order: a completed or failed status is the status of every later state;
    an error message, once there, is the error message of every later
    state; and only a failed state has one. *)
Theorem terminal_is_final new_uuid r db (store store' : gmap string Operation)
    t env db' :
  let h := handle new_uuid r db store in
  let ps := polls new_uuid store' (run_task env t db' store') in
  scheduled h = Some t →
  store' !! new_uuid = store_after h !! new_uuid →
  ∀ j k oj ok,
    j ≤ k → ps !! j = Some (Some oj) → ps !! k = Some (Some ok) →
    (status oj = completed ∨ status oj = failed → status ok = status oj) ∧
    (∀ m, error_message oj = Some m →
          error_message ok = Some m ∧ status oj = failed).
Proof.
  intros h ps Ht Hsame j k oj ok Hjk Hj Hk.
  destruct (handle_scheduled _ _ _ _ _ Ht) as [Hid Hop].
  fold h in Hop. rewrite <- Hsame in Hop.
  unfold ps, run_task in Hj, Hk. rewrite Hid in Hj, Hk.
  rewrite (polls_task _ _ _ _ _ _ _ _ Hop) in Hj, Hk.
  destruct (task_body_phases env (task_company_ids t)
              (task_source_collection_id t) (task_target_collection_id t)
              (new_operation new_uuid (length (task_company_ids t))) db')
    as (before & tail & Heq & Hb & He).
  { split; [by left|done]. }
  rewrite Heq, list_lookup_fmap in Hj, Hk.
  destruct ((before ++ tail) !! j) as [oj'|] eqn:Hj'; [|done].
  destruct ((before ++ tail) !! k) as [ok'|] eqn:Hk'; [|done].
  simpl in Hj, Hk. injection Hj as <-. injection Hk as <-.
  by eapply phases_stable.
Qed.

(** ** The validation of a selection *)

Lemma size_list_to_set_le (l : list Z) :
  size (list_to_set l : gset Z) ≤ length l.
Proof.
  induction l as [|x l IH].
  { by rewrite list_to_set_nil, size_empty. }
  rewrite list_to_set_cons, size_union_alt, size_singleton. simpl.
  assert (size (list_to_set l ∖ {[x]} : gset Z) ≤ size (list_to_set l : gset Z))
    as Hdiff.
  { apply subseteq_size. intros y Hy. by apply elem_of_difference in Hy as [? _]. }
  lia.
Qed.

Lemma size_list_to_set_NoDup (l : list Z) :
  size (list_to_set l : gset Z) = length l → NoDup l.
Proof.
  induction l as [|x l IH]; [constructor|].
  rewrite list_to_set_cons. simpl.
  intros Hsz. pose proof (size_list_to_set_le l) as Hle.
  destruct (decide (x ∈ l)) as [Hin|Hnin].
  - assert (({[x]} ∪ list_to_set l : gset Z) = list_to_set l) as Heq.
    { apply set_eq. intros y. rewrite elem_of_union, elem_of_singleton,
        elem_of_list_to_set. split; [intros [->|?]; done|by right]. }
    rewrite Heq in Hsz. lia.
  - rewrite size_union, size_singleton in Hsz.
    2:{ apply disjoint_singleton_l. by rewrite elem_of_list_to_set. }
    constructor; [done|]. apply IH. lia.
Qed.

(** The test of [add_companies_to_collection] passes exactly when the
    requested ids are pairwise distinct members of the collection. *)
Lemma validation_spec db ids k :
  size (company_id_set (query_in db ids k)) = length ids ↔
  NoDup ids ∧ ∀ c, c ∈ ids → member c k ∈ associations db.
Proof.
  assert (company_id_set (query_in db ids k) ⊆ (list_to_set ids : gset Z))
    as Hsub.
  { intros c [Hc _]%elem_of_company_id_set_query_in.
    by apply elem_of_list_to_set. }
  split.
  - intros Hsz. pose proof (size_list_to_set_le ids) as Hle.
    pose proof (subseteq_size _ _ Hsub) as Hle'.
    split; [apply size_list_to_set_NoDup; lia|].
    assert (company_id_set (query_in db ids k) = list_to_set ids) as Heq.
    { apply set_subseteq_size_eq; [done|lia]. }
    intros c Hc.
    assert (c ∈ company_id_set (query_in db ids k)) as Hv.
    { rewrite Heq. by apply elem_of_list_to_set. }
    by apply elem_of_company_id_set_query_in in Hv as [_ ?].
  - intros [Hnd Hall].
    assert (company_id_set (query_in db ids k) = list_to_set ids) as ->.
    { apply set_eq. intros c.
      rewrite elem_of_company_id_set_query_in, elem_of_list_to_set.
      split; [by intros [? _]|]. intros Hc. split; [done|by apply Hall]. }
    by apply size_list_to_set.
Qed.

(** With both collections there, a selection is dispatched exactly when
    its ids are pairwise distinct members of the source, and is answered
    with the 400 otherwise. *)
Lemma add_selected_dispatch new_uuid src tgt ids db
    (store : gmap string Operation) sc tc :
  query_get db src = Some sc → query_get db tgt = Some tc →
  let h := add_companies_to_collection new_uuid src tgt ids db store in
  ((NoDup ids ∧ ∀ c, c ∈ ids → member c src ∈ associations db) →
   scheduled h = Some (selection_task new_uuid src tgt ids) ∧
   store_after h = <[new_uuid := new_operation new_uuid (length ids)]> store ∧
   ∃ msg, response h = AddCompaniesResponse new_uuid msg) ∧
  (¬ (NoDup ids ∧ ∀ c, c ∈ ids → member c src ∈ associations db) →
   h = {| response :=
            HTTPException 400 "Some companies not found in source collection";
          store_after := store;
          scheduled := None |}).
Proof.
  intros Hs Ht. simpl. unfold add_companies_to_collection. rewrite Hs, Ht.
  destruct ids as [|cid ids].
  { split; [intros _; simpl; eauto|]. intros []. split; [constructor|].
    by intros c ?%elem_of_nil. }
  pose proof (validation_spec db (cid :: ids) src) as Hv.
  case_decide as Hsz.
  - split; [|done]. intros Hok. by apply Hv in Hok.
  - split; [intros _; simpl; eauto|]. intros []. apply Hv.
    by destruct (decide (size (company_id_set (query_in db (cid :: ids) src))
                         = length (cid :: ids))).
Qed.

(** ** Runs in a quiet environment *)

Lemma insert_loop_quiet tgt i ws op db :
  NoDup ws →
  (∀ c, c ∈ ws → member c tgt ∉ associations db) →
  (insert_loop quiet tgt i ws op db).1.2 =
    with_associations (associations db ++ ((λ c, member c tgt) <$> ws)) db ∧
  Forall (λ o, o = Inserted) (outcomes quiet tgt i ws db) ∧
  length (outcomes quiet tgt i ws db) = length ws.
Proof.
  revert i op db; induction ws as [|cid rest IH]; intros i op db Hnd Hnew.
  { simpl. rewrite app_nil_r. by destruct db. }
  apply NoDup_cons in Hnd as [Hcid Hnd]. simpl.
  unfold add_commit. simpl. fold (member cid tgt).
  rewrite decide_False; [|apply Hnew; by left].
  set (db2 := with_associations (associations db ++ [member cid tgt]) db).
  destruct (IH (S i) (set_progress (i + 1) op) db2 Hnd) as (Hdb & Hall & Hlen).
  { intros c Hc. unfold db2. simpl. rewrite elem_of_app, list_elem_of_singleton.
    intros [Hin|[= ->]]; [|done]. revert Hin. apply Hnew. by right. }
  destruct (insert_loop quiet tgt (S i) rest _ db2) as [[[w o] d] x].
  simpl in *. split; [|split; [by constructor|by rewrite Hlen]].
  rewrite Hdb. unfold db2. simpl. by rewrite <- app_assoc.
Qed.

Lemma companies_to_add_fresh db ids tgt :
  NoDup ids →
  NoDup (companies_to_add db ids tgt) ∧
  ∀ c, c ∈ companies_to_add db ids tgt → member c tgt ∉ associations db.
Proof.
  intros Hnd. rewrite companies_to_add_alt. split; [by apply NoDup_filter|].
  by intros c [? _]%list_elem_of_filter.
Qed.

Lemma companies_to_add_nil db ids tgt :
  (∀ c, c ∈ ids → member c tgt ∈ associations db) →
  companies_to_add db ids tgt = [].
Proof.
  intros Hall. rewrite companies_to_add_alt.
  induction ids as [|c ids IH]; [done|].
  rewrite filter_cons_False.
  - apply IH. intros c' Hc'. apply Hall. by right.
  - intros Hn. apply Hn, Hall. by left.
Qed.

(** One quiet run over distinct ids: the working set is appended to the
    table in order, and the operation ends completed with progress and total
    both the size of the working set. *)
Lemma quiet_run operation_id ids src tgt db (store : gmap string Operation) n :
  let ws := companies_to_add db ids tgt in
  let run := add_companies_to_collection_task quiet operation_id ids src tgt
               db store in
  store !! operation_id = Some (new_operation operation_id n) →
  NoDup ids →
  final_db run =
    with_associations (associations db ++ ((λ c, member c tgt) <$> ws)) db ∧
  get_operation_status operation_id (final_store store run) =
    Some {| operation_id := operation_id; status := completed;
            progress := length ws; total := length ws;
            error_message := None |}.
Proof.
  intros ws run Hop Hnd. unfold run.
  destruct (companies_to_add_fresh db ids tgt Hnd) as [Hws Hnew].
  fold ws in Hws, Hnew.
  rewrite (task_final_db _ _ _ _ _ _ _ _ Hop), task_body_db; [|done].
  rewrite (final_store_task _ _ _ _ _ _ _ _ Hop), task_body_last; [|done].
  rewrite opl_progress. fold ws.
  destruct (insert_loop_quiet tgt 0 ws
              (set_total (length ws) (set_total (length ids)
                 (set_status in_progress (new_operation operation_id n))))
              db Hws Hnew) as (Hdb & Hall & Hlen).
  split; [exact Hdb|].
  destruct (insertions_all_inserted _ Hall) as [_ Hlast].
  assert (raised (outcomes quiet tgt 0 ws db) = None) as ->.
  { destruct (raised _) as [e|] eqn:Hr; [|done]. apply raised_elem in Hr.
    rewrite Forall_forall in Hall. by apply Hall in Hr. }
  rewrite Hlast, Hlen. by destruct (length ws).
Qed.

Lemma add_selected_scheduled_inv new_uuid src tgt ids db
    (store : gmap string Operation) t :
  scheduled (add_companies_to_collection new_uuid src tgt ids db store)
    = Some t →
  (∃ sc tc, query_get db src = Some sc ∧ query_get db tgt = Some tc) ∧
  NoDup ids ∧ (∀ c, c ∈ ids → member c src ∈ associations db) ∧
  t = selection_task new_uuid src tgt ids.
Proof.
  unfold add_companies_to_collection.
  destruct (query_get db src) as [sc|], (query_get db tgt) as [tc|]; try done.
  destruct ids as [|cid ids].
  - simpl. intros [= <-]. split; [by eexists _, _|]. split; [constructor|].
    split; [|done]. by intros c ?%elem_of_nil.
  - case_decide as Hsz; [done|]. simpl. intros [= <-].
    assert (size (company_id_set (query_in db (cid :: ids) src))
            = length (cid :: ids)) as Hv.
    { by destruct (decide (size (company_id_set (query_in db (cid :: ids) src))
                           = length (cid :: ids))). }
    apply validation_spec in Hv as [Hnd Hall].
    split; [by eexists _, _|]. by repeat split.
Qed.

Lemma with_associations_id db : with_associations (associations db) db = db.
Proof. by destruct db. Qed.

(** ** Dispatching twice, the scenario, and the empty selection *)

(** C6.  A selection is dispatched and its task runs with nothing failing
    and nobody else writing; then the same selection is dispatched again and
    its task runs likewise.  The first run adds to the table the requested
    members that were not in the target, after which they all are; the
    second dispatch is accepted, its run adds nothing, and its operation
    ends completed with progress 0 and total 0. *)
Theorem add_selected_twice uuid1 uuid2 src tgt ids db
    (store : gmap string Operation) t1 :
  let h1 := add_companies_to_collection uuid1 src tgt ids db store in
  let run1 := run_task quiet t1 db (store_after h1) in
  let db1 := final_db run1 in
  let store1 := final_store (store_after h1) run1 in
  let h2 := add_companies_to_collection uuid2 src tgt ids db1 store1 in
  scheduled h1 = Some t1 →
  associations db1 =
    associations db ++
      ((λ c, member c tgt) <$> filter (λ c, member c tgt ∉ associations db) ids) ∧
  (∀ c, c ∈ ids → member c tgt ∈ associations db1) ∧
  ∃ t2, scheduled h2 = Some t2 ∧
        let run2 := run_task quiet t2 db1 (store_after h2) in
        final_db run2 = db1 ∧
        get_operation_status uuid2 (final_store (store_after h2) run2) =
          Some {| operation_id := uuid2; status := completed; progress := 0;
                  total := 0; error_message := None |}.
Proof.
  intros h1 run1 db1 store1 h2 Ht1.
  destruct (add_selected_scheduled_inv _ _ _ _ _ _ _ Ht1)
    as ((sc & tc & Hsc & Htc) & Hnd & Hvalid & ->).
  destruct (add_selected_dispatch uuid1 src tgt ids db store sc tc Hsc Htc)
    as [Hd1 _].
  destruct Hd1 as (_ & Hstore1 & _); [done|]. fold h1 in Hstore1.
  assert (store_after h1 !! uuid1 = Some (new_operation uuid1 (length ids)))
    as Hop1 by (rewrite Hstore1; apply lookup_insert_eq).
  destruct (quiet_run uuid1 ids src tgt db (store_after h1) (length ids)
              Hop1 Hnd) as [Hdb1 _].
  change (final_db run1 = with_associations
            (associations db ++
               ((λ c, member c tgt) <$> companies_to_add db ids tgt)) db)
    in Hdb1. fold db1 in Hdb1.
  rewrite companies_to_add_alt in Hdb1.
  assert (∀ c, c ∈ ids → member c tgt ∈ associations db1) as Hin.
  { intros c Hc. rewrite Hdb1. simpl. apply elem_of_app.
    destruct (decide (member c tgt ∈ associations db)) as [?|Hn]; [by left|].
    right. apply list_elem_of_fmap. exists c. split; [done|].
    by apply list_elem_of_filter. }
  split; [by rewrite Hdb1|]. split; [exact Hin|].
  assert (query_get db1 src = Some sc ∧ query_get db1 tgt = Some tc)
    as [Hsc1 Htc1] by (unfold query_get; rewrite Hdb1; done).
  destruct (add_selected_dispatch uuid2 src tgt ids db1 store1 sc tc Hsc1 Htc1)
    as [Hd2 _].
  destruct Hd2 as (Ht2 & Hstore2 & _).
  { split; [done|]. intros c Hc. rewrite Hdb1. simpl. apply elem_of_app.
    left. by apply Hvalid. }
  fold h2 in Ht2, Hstore2. eexists. split; [exact Ht2|].
  assert (store_after h2 !! uuid2 = Some (new_operation uuid2 (length ids)))
    as Hop2 by (rewrite Hstore2; apply lookup_insert_eq).
  destruct (quiet_run uuid2 ids src tgt db1 (store_after h2) (length ids)
              Hop2 Hnd) as [Hdb2 Hfin].
  rewrite (companies_to_add_nil db1 ids tgt Hin) in Hdb2, Hfin.
  simpl in Hdb2. rewrite app_nil_r, with_associations_id in Hdb2.
  split; [exact Hdb2|exact Hfin].
Qed.

Lemma add_selected_twice_witness :
  let h1 := add_companies_to_collection "op-1" S_id T_id [1; 2]%Z scenario_db ∅ in
  let run1 := run_task quiet (selection_task "op-1" S_id T_id [1; 2]%Z)
                scenario_db (store_after h1) in
  associations (final_db run1) = associations scenario_db ++ [member 1 T_id].
Proof.
  intros h1 run1.
  destruct (add_selected_twice "op-1" "op-2" S_id T_id [1; 2]%Z scenario_db ∅
              (selection_task "op-1" S_id T_id [1; 2]%Z)) as [Hdb _];
    [reflexivity|].
  exact Hdb.
Defined.

(** C8.  With companies 1, 2 and 3 in S and company 2 in T, adding all of S
    to T registers an operation over 3 ids; its task, with nothing failing
    and nobody else writing, lowers the total to 2 (the working set is 1
    and 3), counts 1 and 2, and ends completed with progress 2, leaving 1,
    2 and 3 in T. *)
Theorem add_all_scenario :
  let h := add_all_companies_to_collection "op-1" S_id T_id scenario_db ∅ in
  let t := selection_task "op-1" S_id T_id [1; 2; 3]%Z in
  let run := run_task quiet t scenario_db (store_after h) in
  scheduled h = Some t ∧
  companies_to_add scenario_db [1; 2; 3]%Z T_id = [1; 3]%Z ∧
  polls "op-1" (store_after h) run =
    [scenario_state pending 0 3; scenario_state in_progress 0 3;
     scenario_state in_progress 0 3; scenario_state in_progress 0 2;
     scenario_state in_progress 1 2; scenario_state in_progress 2 2;
     scenario_state completed 2 2] ∧
  get_operation_status "op-1" (final_store (store_after h) run) =
    scenario_state completed 2 2 ∧
  query_all (final_db run) T_id = [member 2 T_id; member 1 T_id; member 3 T_id] ∧
  company_id_set (query_all (final_db run) T_id) = {[1; 2; 3]}%Z.
Proof.
  repeat split; vm_compute; reflexivity.
Qed.

(** C10.  With both collections there, an empty selection is dispatched
    whatever the source holds: the operation is registered with total 0, and
    when the membership query of its task answers, the task touches no row
    and the operation ends completed with progress 0 and total 0. *)
Theorem empty_selection new_uuid src tgt db (store : gmap string Operation)
    sc tc :
  let h := add_companies_to_collection new_uuid src tgt [] db store in
  let t := selection_task new_uuid src tgt [] in
  query_get db src = Some sc → query_get db tgt = Some tc →
  (∃ msg, response h = AddCompaniesResponse new_uuid msg) ∧
  store_after h = <[new_uuid := new_operation new_uuid 0]> store ∧
  scheduled h = Some t ∧
  ∀ env db', query_error env = None →
    final_db (run_task env t db' (store_after h)) = db' ∧
    get_operation_status new_uuid
      (final_store (store_after h) (run_task env t db' (store_after h))) =
      Some {| operation_id := new_uuid; status := completed; progress := 0;
              total := 0; error_message := None |}.
Proof.
  intros h t Hsc Htc. unfold h, add_companies_to_collection.
  rewrite Hsc, Htc. simpl.
  split; [by eexists|]. split; [done|]. split; [done|].
  intros env db' Hq. unfold run_task. simpl.
  assert ((<[new_uuid := new_operation new_uuid 0]> store) !! new_uuid
          = Some (new_operation new_uuid 0)) as Hop by apply lookup_insert_eq.
  rewrite (task_final_db _ _ _ _ _ _ _ _ Hop), task_body_db; [|done].
  rewrite (final_store_task _ _ _ _ _ _ _ _ Hop), task_body_last; [|done].
  rewrite opl_progress. done.
Qed.

Lemma empty_selection_witness :
  get_operation_status "op-1"
    (final_store
       (store_after (add_companies_to_collection "op-1" S_id T_id [] scenario_db ∅))
       (run_task quiet (selection_task "op-1" S_id T_id []) scenario_db
          (store_after
             (add_companies_to_collection "op-1" S_id T_id [] scenario_db ∅))))
  = scenario_state completed 0 0.
Proof.
  destruct (empty_selection "op-1" S_id T_id scenario_db ∅
              {| id := S_id; collection_name := "S" |}
              {| id := T_id; collection_name := "T" |})
    as (_ & _ & _ & Hrun); [reflexivity..|].
  destruct (Hrun quiet scenario_db) as [_ Hfin]; [reflexivity|].
  exact Hfin.
Defined.

(** C5, at the input where the code departs from it: company 1 is in S and
    is asked for twice; every requested id is a member of the source, and
    the handler answers with the 400, registers nothing and schedules
    nothing. *)
Theorem repeated_id_is_rejected :
  Forall (λ c, member c S_id ∈ associations scenario_db) [1; 1]%Z ∧
  add_companies_to_collection "op-1" S_id T_id [1; 1]%Z scenario_db ∅ =
    {| response :=
         HTTPException 400 "Some companies not found in source collection";
       store_after := ∅;
       scheduled := None |}.
Proof.
  split; [|vm_compute; reflexivity].
  repeat (apply Forall_cons; split; [apply list_elem_of_here|]).
  apply Forall_nil_2.
Qed.

Lemma progress_le_total_witness :
  let h := handle "op-1" (AddSelected S_id T_id [1; 2; 3]%Z) race_db ∅ in
  let t := selection_task "op-1" S_id T_id [1; 2; 3]%Z in
  let o := {| operation_id := "op-1"; status := failed; progress := 2;
              total := 3; error_message := Some "connection lost"%string |} in
  Some o ∈ polls "op-1" (store_after h) (run_task race_env t race_db (store_after h)) ∧
  progress o ≤ total o.
Proof.
  intros h t o.
  assert (Some o ∈ polls "op-1" (store_after h)
                     (run_task race_env t race_db (store_after h))) as Ho.
  { apply (list_elem_of_lookup_2 _ 6). reflexivity. }
  split; [exact Ho|].
  apply (progress_le_total "op-1" (AddSelected S_id T_id [1; 2; 3]%Z) race_db ∅
           (store_after h) t race_env race_db);
    [reflexivity|reflexivity|exact Ho].
Defined.

Lemma total_is_working_set_size_witness :
  let h := handle "op-1" (AddAll S_id T_id) scenario_db ∅ in
  let t := selection_task "op-1" S_id T_id [1; 2; 3]%Z in
  ∃ o, polls "op-1" (store_after h)
         (run_task quiet t scenario_db (store_after h)) !! 3 = Some (Some o) ∧
       total o = 2.
Proof.
  intros h t.
  destruct (total_is_working_set_size "op-1" (AddAll S_id T_id) scenario_db ∅
              (store_after h) t quiet scenario_db) as (_ & _ & Hq);
    [reflexivity|reflexivity|].
  destruct Hq as [(o & Ho & Htot) _]; [reflexivity|].
  exists o. split; [exact Ho|exact Htot].
Defined.

Lemma terminal_is_final_witness :
  let h := handle "op-1" (AddSelected S_id T_id [1; 2; 3]%Z) race_db ∅ in
  let t := selection_task "op-1" S_id T_id [1; 2; 3]%Z in
  let oj := {| operation_id := "op-1"; status := failed; progress := 2;
               total := 3; error_message := None |} in
  let ok := set_error_message "connection lost" oj in
  polls "op-1" (store_after h) (run_task race_env t race_db (store_after h))
    !! 5 = Some (Some oj) ∧
  polls "op-1" (store_after h) (run_task race_env t race_db (store_after h))
    !! 6 = Some (Some ok) ∧
  status ok = status oj.
Proof.
  intros h t oj ok.
  destruct (terminal_is_final "op-1" (AddSelected S_id T_id [1; 2; 3]%Z)
              race_db ∅ (store_after h) t race_env race_db eq_refl eq_refl
              5 6 oj ok) as [Hst _];
    [lia|reflexivity|reflexivity|].
  split; [reflexivity|]. split; [reflexivity|].
  apply Hst. right. reflexivity.
Defined.

(** ** The database during a run *)

Lemma task_db env operation_id company_ids src tgt db
    (store : gmap string Operation) :
  final_db (add_companies_to_collection_task env operation_id company_ids
              src tgt db store) = db ∨
  ∃ op, final_db (add_companies_to_collection_task env operation_id
                    company_ids src tgt db store)
        = (insert_loop env tgt 0 (companies_to_add db company_ids tgt) op
             db).1.2.
Proof.
  destruct (store !! operation_id) as [op|] eqn:Hop.
  - rewrite (task_final_db _ _ _ _ _ _ _ _ Hop).
    destruct (query_error env) as [e|] eqn:Hq.
    + left. by rewrite (task_body_query_error _ _ _ _ _ _ _ Hq).
    + right. eexists. by apply task_body_db.
  - left. unfold add_companies_to_collection_task. by rewrite Hop.
Qed.

Lemma task_db_grows env operation_id company_ids src tgt db
    (store : gmap string Operation) :
  let run := add_companies_to_collection_task env operation_id company_ids
               src tgt db store in
  collections (final_db run) = collections db ∧
  (NoDup (associations db) → NoDup (associations (final_db run))) ∧
  ∃ extra,
    associations (final_db run) = associations db ++ extra ∧
    Forall (λ r, (∃ k, r ∈ concurrent_commits env k) ∨
                 (∃ c, c ∈ company_ids ∧ (member c tgt ∉ associations db) ∧
                       r = member c tgt)) extra.
Proof.
  intros run. unfold run.
  destruct (task_db env operation_id company_ids src tgt db store)
    as [->|[op ->]].
  { split; [done|]. split; [done|]. exists []. by rewrite app_nil_r. }
  destruct (insert_loop_db env tgt 0 (companies_to_add db company_ids tgt) op db)
    as (Hc & Hnd & extra & He & Hall).
  split; [done|]. split; [done|]. exists extra. split; [done|].
  eapply Forall_impl; [exact Hall|].
  intros r [?|(c & Hc' & ->)]; [by left|]. right. exists c.
  rewrite companies_to_add_alt in Hc'.
  apply list_elem_of_filter in Hc' as [? ?]. done.
Qed.

(** X1.  Whatever the environment and the registry, a run of the task
    leaves the collections as they were, keeps every row of the table in
    place, keeps the pairs unique if they were, and every row the table
    gains was committed by another session or puts in the target a
    requested company that was not there when the task asked. *)
Theorem database_only_grows env operation_id company_ids src tgt db
    (store : gmap string Operation) :
  let run := add_companies_to_collection_task env operation_id company_ids
               src tgt db store in
  collections (final_db run) = collections db ∧
  (NoDup (associations db) → NoDup (associations (final_db run))) ∧
  ∃ extra,
    associations (final_db run) = associations db ++ extra ∧
    Forall (λ r, (∃ k, r ∈ concurrent_commits env k) ∨
                 (∃ c, c ∈ company_ids ∧ (member c tgt ∉ associations db) ∧
                       r = member c tgt)) extra.
Proof. apply task_db_grows. Qed.

Lemma filter_other_collection (cid tgt : uuid)
    (extra : list CompanyCollectionAssociation) :
  cid ≠ tgt →
  Forall (λ r, ∃ c, r = member c tgt) extra →
  filter (λ a, collection_id a = cid) extra = [].
Proof.
  intros Hne. induction 1 as [|r extra (c & ->) _ IH]; [done|].
  rewrite filter_cons_False; [done|]. simpl. congruence.
Qed.

(** X2.  When no other session writes during the run, the members of
    every collection other than the target are after the run what they were
    before it, whatever fails. *)
Theorem other_collections_untouched env operation_id company_ids src tgt db
    (store : gmap string Operation) cid :
  let run := add_companies_to_collection_task env operation_id company_ids
               src tgt db store in
  alone env → cid ≠ tgt →
  query_all (final_db run) cid = query_all db cid.
Proof.
  intros run Halone Hne.
  destruct (task_db_grows env operation_id company_ids src tgt db store)
    as (_ & _ & extra & He & Hall).
  fold run in He. unfold query_all. rewrite He, filter_app.
  rewrite (filter_other_collection cid tgt extra Hne), app_nil_r; [done|].
  eapply Forall_impl; [exact Hall|].
  intros r [[k Hk]|(c & _ & _ & ->)]; [|by exists c].
  rewrite Halone in Hk. by apply elem_of_nil in Hk.
Qed.

Lemma other_collections_untouched_witness :
  query_all
    (final_db (add_companies_to_collection_task lossy_env "op-1" [1; 2; 3]%Z
                 S_id T_id race_db race_store)) S_id
  = query_all race_db S_id.
Proof.
  apply (other_collections_untouched lossy_env "op-1" [1; 2; 3]%Z S_id T_id
           race_db race_store S_id).
  - intros k. reflexivity.
  - discriminate.
Defined.

Lemma insert_loop_alone env tgt i ws op db :
  alone env →
  associations (insert_loop env tgt i ws op db).1.2 =
    associations db ++
      ((λ c, member c tgt) <$> inserted (outcomes env tgt i ws db) ws).
Proof.
  intros Halone. revert i op db; induction ws as [|cid rest IH]; intros i op db.
  { simpl. by rewrite app_nil_r. }
  cbn [insert_loop outcomes]. rewrite Halone. simpl commit_others.
  destruct (add_commit env i _ db) as [db2|e] eqn:Hc.
  - specialize (IH (S i) (set_progress (i + 1) op) db2).
    destruct (insert_loop env tgt (S i) rest _ db2) as [[[w o] d] x].
    simpl in *. rewrite IH.
    unfold add_commit in Hc. destruct (commit_error env i); [done|].
    case_decide; [done|]. injection Hc as <-. simpl.
    by rewrite <- app_assoc.
  - destruct (contains uq_company_collection e).
    + simpl. apply IH.
    + simpl. by rewrite app_nil_r.
Qed.

Lemma inserted_length log ws :
  length log ≤ length ws → length (inserted log ws) = insertions log.
Proof.
  unfold insertions. revert ws; induction log as [|o log IH]; intros ws Hlen.
  { by destruct ws. }
  destruct ws as [|c ws]; simpl in Hlen; [lia|].
  assert (length log ≤ length ws) as Hlen' by lia.
  destruct o; cbn [inserted].
  - rewrite filter_cons_True; [|done]. simpl. f_equal. by apply IH.
  - rewrite filter_cons_False; [|done]. by apply IH.
  - rewrite filter_cons_False; [|done]. by apply IH.
Qed.

(** X3.  When no other session writes during the run, the task leaves the
    table as it found it followed by one row for each member of the working
    set whose commit went through, in order, whether the operation ends
    completed or failed: what was committed before a fatal error stays. *)
Theorem committed_rows_stay env operation_id company_ids src tgt db
    (store : gmap string Operation) op :
  let ws := companies_to_add db company_ids tgt in
  let log := outcomes env tgt 0 ws db in
  let run := add_companies_to_collection_task env operation_id company_ids
               src tgt db store in
  store !! operation_id = Some op →
  query_error env = None →
  alone env →
  associations (final_db run) =
    associations db ++ ((λ c, member c tgt) <$> inserted log ws) ∧
  length (inserted log ws) = insertions log.
Proof.
  intros ws log run Hop Hq Halone. unfold run.
  rewrite (task_final_db _ _ _ _ _ _ _ _ Hop), task_body_db; [|done].
  split; [by apply insert_loop_alone|].
  apply inserted_length, outcomes_length.
Qed.

Lemma committed_rows_stay_witness :
  associations
    (final_db (add_companies_to_collection_task lossy_env "op-1" [1; 2; 3]%Z
                 S_id T_id race_db race_store))
  = associations race_db ++ [member 1 T_id].
Proof.
  destruct (committed_rows_stay lossy_env "op-1" [1; 2; 3]%Z S_id T_id race_db
              race_store (new_operation "op-1" 3)) as [Hdb _];
    [reflexivity|reflexivity|intros k; reflexivity|].
  exact Hdb.
Defined.

Lemma insert_loop_keeps env tgt i ws op db r :
  r ∈ associations db → r ∈ associations (insert_loop env tgt i ws op db).1.2.
Proof.
  intros Hr. destruct (insert_loop_db env tgt i ws op db)
    as (_ & _ & extra & -> & _).
  apply elem_of_app. by left.
Qed.

Lemma commit_others_keeps rows db r :
  r ∈ associations db → r ∈ associations (commit_others rows db).
Proof.
  intros Hr. destruct (commit_others_grows rows db) as (_ & _ & extra & -> & _).
  apply elem_of_app. by left.
Qed.

Lemma insert_loop_sound env tgt i ws op db :
  commits_sound env →
  ∀ c, c ∈ ws → member c tgt ∈ associations (insert_loop env tgt i ws op db).1.2.
Proof.
  intros Hsound. revert i op db; induction ws as [|cid rest IH];
    intros i op db c Hc.
  { by apply elem_of_nil in Hc. }
  cbn [insert_loop]. unfold add_commit. rewrite Hsound.
  set (db1 := commit_others (concurrent_commits env i) db).
  case_decide as Hin.
  - rewrite unique_violation_skipped.
    apply elem_of_cons in Hc as [->|Hc]; [|by apply IH].
    by apply insert_loop_keeps.
  - set (db2 := with_associations _ db1).
    assert (member c tgt ∈ associations
              (insert_loop env tgt (S i) rest (set_progress (i + 1) op) db2).1.2)
      as Hgoal.
    { apply elem_of_cons in Hc as [->|Hc]; [|by apply IH].
      apply insert_loop_keeps. unfold db2. simpl.
      apply elem_of_app. right. by left. }
    by destruct (insert_loop env tgt (S i) rest _ db2) as [[[w o] d] x].
Qed.

(** X4.  When the membership query answers and no commit raises for a
    reason of its own, then whatever other sessions write meanwhile, the
    operation ends completed and every requested company is in the target
    after the run. *)
Theorem all_requested_end_in_target env operation_id company_ids src tgt db
    (store : gmap string Operation) op :
  let run := add_companies_to_collection_task env operation_id company_ids
               src tgt db store in
  store !! operation_id = Some op →
  query_error env = None →
  commits_sound env →
  (∀ c, c ∈ company_ids → member c tgt ∈ associations (final_db run)) ∧
  ∃ o, get_operation_status operation_id (final_store store run) = Some o ∧
       status o = completed.
Proof.
  intros run Hop Hq Hsound. unfold run. split.
  - intros c Hc.
    rewrite (task_final_db _ _ _ _ _ _ _ _ Hop), task_body_db; [|done].
    destruct (decide (member c tgt ∈ associations db)) as [Hin|Hnin].
    + by apply insert_loop_keeps.
    + apply insert_loop_sound; [done|]. rewrite companies_to_add_alt.
      by apply list_elem_of_filter.
  - rewrite (final_store_task _ _ _ _ _ _ _ _ Hop), task_body_last; [|done].
    assert (raised (outcomes env tgt 0 (companies_to_add db company_ids tgt) db)
            = None) as ->; [|by eexists].
    destruct (raised _) as [e|] eqn:Hr; [|done]. apply raised_elem in Hr.
    exfalso. revert Hr. apply outcomes_only_duplicates.
    intros k e' He'. by rewrite Hsound in He'.
Qed.

Lemma all_requested_end_in_target_witness :
  member 1 T_id ∈
    associations
      (final_db (add_companies_to_collection_task busy_env "op-1" [1; 2; 3]%Z
                   S_id T_id race_db race_store)).
Proof.
  destruct (all_requested_end_in_target busy_env "op-1" [1; 2; 3]%Z S_id T_id
              race_db race_store (new_operation "op-1" 3)) as [Hin _];
    [reflexivity|reflexivity|intros k; reflexivity|].
  apply Hin. apply list_elem_of_here.
Defined.

(** ** The registry entry along a run *)

Lemma strongly_sorted_lookup {A} (R : relation A) (l : list A) j k a b :
  StronglySorted R l → j < k → l !! j = Some a → l !! k = Some b → R a b.
Proof.
  intros Hs. revert j k. induction Hs as [|x l Hs IH Hall]; intros j k Hjk Hj Hk.
  { by rewrite lookup_nil in Hj. }
  destruct k as [|k]; [lia|]. simpl in Hk. destruct j as [|j]; simpl in Hj.
  - injection Hj as <-. rewrite Forall_forall in Hall.
    apply Hall. by eapply list_elem_of_lookup_2.
  - apply (IH j k); [lia|done..].
Qed.

Lemma marks_sorted i log : StronglySorted lt (marks i log).
Proof.
  revert i; induction log as [|o log IH]; intros i; [constructor|].
  destruct o; simpl; [|apply IH..].
  constructor; [apply IH|]. apply Forall_forall.
  intros p Hp%marks_bound. lia.
Qed.

Lemma marks_le_last i log p :
  p ∈ marks i log → p ≤ i + last_insertion log ∧ 0 < last_insertion log.
Proof.
  revert i; induction log as [|o log IH]; intros i; simpl.
  { by intros ?%elem_of_nil. }
  destruct o.
  - rewrite decide_True; [|done]. rewrite elem_of_cons. intros [->|Hp].
    + destruct (last_insertion log); lia.
    + apply IH in Hp. destruct (last_insertion log); lia.
  - intros Hp. apply IH in Hp. destruct (last_insertion log); lia.
  - intros Hp. apply IH in Hp. destruct (last_insertion log); lia.
Qed.

Lemma task_body_advances env company_ids src tgt op db :
  progress op = 0 → length company_ids ≤ total op →
  StronglySorted advances (op :: (task_body env company_ids src tgt op db).1).
Proof.
  intros Hp Ht. destruct (query_error env) as [e|] eqn:Hq.
  { rewrite (task_body_query_error _ _ _ _ _ _ _ Hq). simpl.
    repeat (apply SSorted_cons;
            [|repeat (apply Forall_cons; split; [split; simpl; lia|]);
              apply Forall_nil_2]).
    apply SSorted_nil. }
  destruct (task_body_log env company_ids src tgt op db Hq) as [dbl ->].
  simpl fst.
  set (n := length (companies_to_add db company_ids tgt)).
  assert (n ≤ length company_ids) as Hn.
  { unfold n. rewrite companies_to_add_length. lia. }
  set (op1 := set_status in_progress op).
  set (op2 := set_total (length company_ids) op1).
  set (op3 := set_total n op2).
  set (log := outcomes env tgt 0 (companies_to_add db company_ids tgt) db).
  set (written := (λ p, set_progress p op3) <$> marks 0 log).
  set (opl := List.last written op3).
  set (tail := match raised log with
               | Some e => [set_status failed opl;
                            set_error_message e (set_status failed opl)]
               | None => [set_status completed opl]
               end).
  assert (total opl = n ∧ progress opl = last_insertion log) as [Hlt Hlp].
  { unfold opl, written. rewrite marks_last_fmap.
    destruct (last_insertion log); simpl; [by rewrite Hp|done]. }
  assert (Forall (λ o, total o = n ∧ progress o = last_insertion log) tail)
    as Htail.
  { unfold tail. destruct (raised log);
      repeat (apply Forall_cons; split; [done|]); apply Forall_nil_2. }
  assert (Forall (λ o, total o = n ∧ progress o ≤ last_insertion log) written)
    as Hwritten.
  { apply Forall_fmap, Forall_forall. intros p Hm%marks_le_last. simpl.
    split; [done|lia]. }
  apply (StronglySorted_app_2 advances [op; op1; op2; op3] (written ++ tail)).
  - intros x y Hx Hy.
    assert (total y = n) as Hy'.
    { apply elem_of_app in Hy as [Hy|Hy].
      - rewrite Forall_forall in Hwritten. by apply Hwritten.
      - rewrite Forall_forall in Htail. by apply Htail. }
    rewrite !elem_of_cons in Hx.
    destruct Hx as [->|[->|[->|[->|Hx]]]]; [..|by apply elem_of_nil in Hx];
      split; simpl; lia.
  - repeat (apply SSorted_cons;
            [|repeat (apply Forall_cons; split; [split; simpl; lia|]);
              apply Forall_nil_2]).
    apply SSorted_nil.
  - apply StronglySorted_app_2.
    + intros x y Hx Hy. rewrite Forall_forall in Hwritten, Htail.
      destruct (Hwritten _ Hx) as [? ?], (Htail _ Hy) as [? ?].
      split; lia.
    + unfold written.
      apply (StronglySorted_fmap _ lt advances); [|apply marks_sorted].
      intros p q Hpq. split; simpl; lia.
    + assert (∀ x y, x ∈ tail → y ∈ tail → advances x y) as Hany.
      { intros x y Hx Hy. rewrite Forall_forall in Htail.
        destruct (Htail _ Hx) as [? ?], (Htail _ Hy) as [? ?]. split; lia. }
      clear -Hany. induction tail as [|x l IH]; [constructor|].
      constructor.
      * apply IH. intros y z Hy Hz. apply Hany; by right.
      * apply Forall_forall. intros y Hy. apply Hany; [by left|by right].
Qed.

(** X5.  Along the states that polls of a dispatched operation can see,
    in order, progress never goes down and total never goes up, whatever
    the environment does. *)
Theorem progress_never_decreases new_uuid r db
    (store store' : gmap string Operation) t env db' :
  let h := handle new_uuid r db store in
  let ps := polls new_uuid store' (run_task env t db' store') in
  scheduled h = Some t →
  store' !! new_uuid = store_after h !! new_uuid →
  ∀ j k oj ok,
    j ≤ k → ps !! j = Some (Some oj) → ps !! k = Some (Some ok) →
    progress oj ≤ progress ok ∧ total ok ≤ total oj.
Proof.
  intros h ps Ht Hsame j k oj ok Hjk Hj Hk.
  destruct (handle_scheduled _ _ _ _ _ Ht) as [Hid Hop].
  fold h in Hop. rewrite <- Hsame in Hop.
  unfold ps, run_task in Hj, Hk. rewrite Hid in Hj, Hk.
  rewrite (polls_task _ _ _ _ _ _ _ _ Hop), list_lookup_fmap in Hj, Hk.
  pose proof (task_body_advances env (task_company_ids t)
                (task_source_collection_id t) (task_target_collection_id t)
                (new_operation new_uuid (length (task_company_ids t))) db'
                eq_refl (le_n _)) as Hs.
  destruct ((_ :: _) !! j) as [oj'|] eqn:Hj'; [|done].
  destruct ((_ :: _) !! k) as [ok'|] eqn:Hk'; [|done].
  simpl in Hj, Hk. injection Hj as <-. injection Hk as <-.
  destruct (decide (j = k)) as [->|Hne].
  - rewrite Hj' in Hk'. injection Hk' as <-. split; lia.
  - apply (strongly_sorted_lookup advances _ j k oj' ok' Hs); [lia|done..].
Qed.

Lemma progress_never_decreases_witness :
  let h := handle "op-1" (AddSelected S_id T_id [1; 2; 3]%Z) race_db ∅ in
  let t := selection_task "op-1" S_id T_id [1; 2; 3]%Z in
  let oj := {| operation_id := "op-1"; status := in_progress; progress := 0;
               total := 3; error_message := None |} in
  let ok := {| operation_id := "op-1"; status := in_progress; progress := 2;
               total := 3; error_message := None |} in
  polls "op-1" (store_after h) (run_task race_env t race_db (store_after h))
    !! 3 = Some (Some oj) ∧
  polls "op-1" (store_after h) (run_task race_env t race_db (store_after h))
    !! 4 = Some (Some ok) ∧
  progress oj ≤ progress ok.
Proof.
  intros h t oj ok.
  destruct (progress_never_decreases "op-1" (AddSelected S_id T_id [1; 2; 3]%Z)
              race_db ∅ (store_after h) t race_env race_db eq_refl eq_refl
              3 4 oj ok) as [Hp _];
    [lia|reflexivity|reflexivity|].
  split; [reflexivity|]. split; [reflexivity|exact Hp].
Defined.

Lemma task_body_same_id env company_ids src tgt op db o :
  o ∈ (task_body env company_ids src tgt op db).1 →
  operation_id o = operation_id op.
Proof.
  destruct (query_error env) as [e|] eqn:Hq.
  - rewrite (task_body_query_error _ _ _ _ _ _ _ Hq). simpl.
    rewrite !elem_of_cons. intros [->|[->|[->|[->|Ho]]]]; try done.
    by apply elem_of_nil in Ho.
  - destruct (task_body_log env company_ids src tgt op db Hq) as [dbl ->].
    simpl fst. rewrite !elem_of_cons, elem_of_app, list_elem_of_fmap.
    intros [->|[->|[->|[(p & -> & _)|Ho]]]]; try done.
    assert (operation_id
              (List.last
                 ((λ p, set_progress p
                          (set_total
                             (length (companies_to_add db company_ids tgt))
                             (set_total (length company_ids)
                                (set_status in_progress op))))
                    <$> marks 0 (outcomes env tgt 0
                                   (companies_to_add db company_ids tgt) db))
                 (set_total (length (companies_to_add db company_ids tgt))
                    (set_total (length company_ids)
                       (set_status in_progress op))))
            = operation_id op) as Hl.
    { rewrite marks_last_fmap. by destruct (last_insertion _). }
    destruct (raised _); rewrite !elem_of_cons in Ho.
    + destruct Ho as [->|[->|Ho]]; [done..|]. by apply elem_of_nil in Ho.
    + destruct Ho as [->|Ho]; [done|]. by apply elem_of_nil in Ho.
Qed.

(** X6.  A run of the task writes to the entry of its own operation only:
    in every registry it leaves behind, the other operations are as they
    were, no identifier was added or dropped, and the entry of the
    operation still carries its identifier. *)
Theorem other_operations_untouched env oid company_ids src tgt db
    (store st : gmap string Operation) :
  let run := add_companies_to_collection_task env oid company_ids src tgt
               db store in
  st ∈ observed run →
  (∀ k, k ≠ oid → st !! k = store !! k) ∧
  dom st = dom store ∧
  ∃ op o, store !! oid = Some op ∧ st !! oid = Some o ∧
          operation_id o = operation_id op.
Proof.
  intros run Hst. unfold run in Hst.
  destruct (store !! oid) as [op|] eqn:Hop.
  2:{ unfold add_companies_to_collection_task in Hst. rewrite Hop in Hst.
      by apply elem_of_nil in Hst. }
  rewrite (task_observed _ _ _ _ _ _ _ _ Hop) in Hst.
  apply list_elem_of_fmap in Hst as (o & -> & Ho).
  split; [|split].
  - intros k Hk. by apply lookup_insert_ne.
  - rewrite dom_insert_L. apply subseteq_union_1_L.
    intros k ->%elem_of_singleton. apply elem_of_dom. by exists op.
  - exists op, o. split; [done|]. split; [apply lookup_insert_eq|].
    by eapply task_body_same_id.
Qed.

Lemma other_operations_untouched_witness :
  let run := add_companies_to_collection_task race_env "op-1" [1; 2; 3]%Z
               S_id T_id race_db
               (<["op-0"%string := new_operation "op-0" 7]> race_store) in
  final_store (<["op-0"%string := new_operation "op-0" 7]> race_store) run
    !! "op-0"%string = Some (new_operation "op-0" 7).
Proof.
  intros run.
  destruct (other_operations_untouched race_env "op-1" [1; 2; 3]%Z S_id T_id
              race_db (<["op-0"%string := new_operation "op-0" 7]> race_store)
              (final_store
                 (<["op-0"%string := new_operation "op-0" 7]> race_store) run))
    as [Hother _].
  - apply (list_elem_of_lookup_2 _ 5). reflexivity.
  - rewrite (Hother "op-0"%string); [reflexivity|discriminate].
Defined.

(** ** How a run ends *)

Lemma raised_last log e : raised log = Some e ↔ last log = Some (Fatal e).
Proof.
  unfold raised. destruct log as [|o log]; [done|].
  destruct (exists_last (l := o :: log)) as (l' & a & ->); [done|].
  rewrite last_last, last_snoc. split.
  - destruct a; [done..|]. by intros [= ->].
  - by intros [= ->].
Qed.

(** X7.  Every run of the task on a registered operation ends it completed
    or failed.  It ends completed exactly when the membership query answered
    and the loop did not stop on an exception, and then the error message
    is left as it was; otherwise it ends failed with, as error message, the
    text of the exception raised by the query or by the commit the loop
    stopped at. *)
Theorem run_ends_terminal env oid company_ids src tgt db
    (store : gmap string Operation) op :
  let log := outcomes env tgt 0 (companies_to_add db company_ids tgt) db in
  let run := add_companies_to_collection_task env oid company_ids src tgt
               db store in
  store !! oid = Some op →
  ∃ o, get_operation_status oid (final_store store run) = Some o ∧
       ((status o = completed ∧ error_message o = error_message op ∧
         query_error env = None ∧ ∀ e, last log ≠ Some (Fatal e)) ∨
        (status o = failed ∧
         ∃ e, error_message o = Some e ∧
              (query_error env = Some e ∨
               (query_error env = None ∧ last log = Some (Fatal e))))).
Proof.
  intros log run Hop. unfold run.
  rewrite (final_store_task _ _ _ _ _ _ _ _ Hop).
  destruct (query_error env) as [e|] eqn:Hq.
  - rewrite (task_body_query_error _ _ _ _ _ _ _ Hq). simpl.
    eexists. split; [done|]. right. split; [done|]. exists e. by split; [|left].
  - rewrite task_body_last; [|done]. fold log.
    destruct (raised log) as [e|] eqn:Hr.
    + eexists. split; [done|]. right. split; [done|]. exists e.
      split; [done|]. right. split; [done|]. by apply raised_last.
    + eexists. split; [done|]. left. split; [done|]. split.
      { simpl. rewrite marks_last_fmap. by destruct (last_insertion _). }
      split; [done|]. intros e He. apply raised_last in He. congruence.
Qed.

Lemma run_ends_terminal_witness :
  ∃ o, get_operation_status "op-1"
         (final_store race_store
            (add_companies_to_collection_task busy_env "op-1" [1; 2; 3]%Z
               S_id T_id race_db race_store)) = Some o ∧
       (status o = completed ∨ status o = failed).
Proof.
  destruct (run_ends_terminal busy_env "op-1" [1; 2; 3]%Z S_id T_id race_db
              race_store (new_operation "op-1" 3)) as (o & Ho & Hend);
    [reflexivity|].
  exists o. split; [exact Ho|].
  destruct Hend as [(Hs & _)|(Hs & _)]; [left|right]; exact Hs.
Defined.

(** X8.  When the membership query of the task raises, no row is written,
    and the operation ends failed with the text of the exception, with the
    progress it had and with the number of requested ids as total: the
    working set was never computed. *)
Theorem query_failure_fails_operation env oid company_ids src tgt db
    (store : gmap string Operation) op e :
  let run := add_companies_to_collection_task env oid company_ids src tgt
               db store in
  store !! oid = Some op →
  query_error env = Some e →
  final_db run = db ∧
  length (observed run) = 4 ∧
  get_operation_status oid (final_store store run) =
    Some {| operation_id := operation_id op; status := failed;
            progress := progress op; total := length company_ids;
            error_message := Some e |}.
Proof.
  intros run Hop Hq. unfold run.
  rewrite (task_final_db _ _ _ _ _ _ _ _ Hop).
  rewrite (final_store_task _ _ _ _ _ _ _ _ Hop).
  rewrite (task_observed _ _ _ _ _ _ _ _ Hop).
  by rewrite (task_body_query_error _ _ _ _ _ _ _ Hq).
Qed.

Lemma query_failure_fails_operation_witness :
  get_operation_status "op-1"
    (final_store race_store
       (add_companies_to_collection_task down_env "op-1" [1; 2; 3]%Z
          S_id T_id race_db race_store)) =
  Some {| operation_id := "op-1"; status := failed; progress := 0; total := 3;
          error_message := Some "server closed the connection"%string |}.
Proof.
  destruct (query_failure_fails_operation down_env "op-1" [1; 2; 3]%Z S_id T_id
              race_db race_store (new_operation "op-1" 3)
              "server closed the connection") as (_ & _ & Hfin);
    [reflexivity..|].
  exact Hfin.
Defined.

Lemma last_insertion_full log :
  last_insertion log = length log ↔ log = [] ∨ last log = Some Inserted.
Proof.
  induction log as [|o log IH]; [by split; [left|]|].
  pose proof (last_insertion_le log) as Hle.
  cbn [last_insertion length]. destruct log as [|o' log].
  - simpl. case_decide as Ho; split.
    + intros _. right. by rewrite Ho.
    + done.
    + done.
    + intros [?|[= ->]]; done.
  - change (last (o :: o' :: log)) with (last (o' :: log)).
    destruct (last_insertion (o' :: log)) as [|p] eqn:Hl.
    + split.
      * case_decide; simpl; lia.
      * intros [?|Hlast]; [done|]. exfalso.
        assert (0 = length (o' :: log)) as H0; [|done].
        apply IH. by right.
    + split.
      * intros Heq. right.
        destruct IH as [[?|?] _]; [simpl in *; lia|done..].
      * intros [?|Hlast]; [done|].
        destruct IH as [_ IH]. rewrite IH; [done|by right].
Qed.

(** X9.  When a dispatched operation ends completed, its progress is one
    plus the position of the last member whose commit went through (0 when
    none did), and its total is the size of the working set: progress
    reaches total exactly when the working set is empty or the commit of its
    last member went through, and stays below it when that member was
    skipped. *)
Theorem completed_progress env oid company_ids src tgt db
    (store : gmap string Operation) n o :
  let ws := companies_to_add db company_ids tgt in
  let log := outcomes env tgt 0 ws db in
  let run := add_companies_to_collection_task env oid company_ids src tgt
               db store in
  store !! oid = Some (new_operation oid n) →
  get_operation_status oid (final_store store run) = Some o →
  status o = completed →
  progress o = last_insertion log ∧
  total o = length ws ∧
  progress o ≤ total o ∧
  (progress o = total o ↔ ws = [] ∨ last log = Some Inserted).
Proof.
  intros ws log run Hop Ho Hs. unfold run in Ho.
  rewrite (final_store_task _ _ _ _ _ _ _ _ Hop) in Ho.
  destruct (query_error env) as [e|] eqn:Hq.
  { rewrite (task_body_query_error _ _ _ _ _ _ _ Hq) in Ho. simpl in Ho.
    injection Ho as <-. done. }
  rewrite task_body_last in Ho; [|done]. fold ws log in Ho.
  destruct (raised log) as [e|] eqn:Hr.
  { injection Ho as <-. done. }
  injection Ho as <-. simpl. rewrite marks_last_fmap.
  pose proof (outcomes_no_fatal_length env tgt 0 ws db Hr) as Hlen.
  fold log in Hlen. pose proof (last_insertion_le log) as Hle.
  pose proof (last_insertion_full log) as Hfull.
  assert (ws = [] ↔ log = []) as Hnil.
  { split; [by intros ->|]. intros Hl. rewrite Hl in Hlen.
    by destruct ws. }
  destruct (last_insertion log) as [|p] eqn:Hl; simpl.
  - split; [done|]. split; [done|]. split; [lia|].
    rewrite Hnil, <- Hfull. lia.
  - split; [done|]. split; [done|]. split; [lia|].
    rewrite Hnil, <- Hfull. lia.
Qed.

Lemma completed_progress_witness :
  let o := {| operation_id := "op-1"; status := completed; progress := 3;
              total := 3; error_message := None |} in
  get_operation_status "op-1"
    (final_store race_store
       (add_companies_to_collection_task busy_env "op-1" [1; 2; 3]%Z
          S_id T_id race_db race_store)) = Some o ∧
  progress o = total o.
Proof.
  intros o.
  destruct (completed_progress busy_env "op-1" [1; 2; 3]%Z S_id T_id race_db
              race_store 3 o) as (_ & _ & _ & Hiff);
    [reflexivity..|].
  split; [reflexivity|]. apply Hiff. right. reflexivity.
Defined.

(** ** The handlers and the listing *)

Lemma query_get_Some db cid c :
  query_get db cid = Some c → id c = cid ∧ c ∈ collections db.
Proof.
  unfold query_get. intros Hf. apply find_some in Hf as [Hin Hb].
  apply bool_decide_eq_true in Hb. split; [done|]. by apply list_elem_of_In.
Qed.

Lemma query_get_listed db cid :
  is_Some (query_get db cid) ↔ cid ∈ listed db.
Proof.
  unfold listed, get_all_collection_metadata. rewrite <- list_fmap_compose.
  rewrite list_elem_of_fmap. split.
  - intros [c Hc]. apply query_get_Some in Hc as [<- Hin]. by exists c.
  - intros (c & -> & Hin). simpl.
    destruct (query_get db (id c)) as [c'|] eqn:Hf; [by eexists|].
    unfold query_get in Hf. apply list_elem_of_In in Hin.
    pose proof (find_none _ _ Hf c Hin) as Hb. simpl in Hb.
    by apply bool_decide_eq_false in Hb.
Qed.

(** X10.  A dispatching request is answered with the 404 exactly when its
    source or its target is not among the collections that
    [get_all_collection_metadata] lists, whatever ids it asks for; the
    registry is then left as it was and no task is scheduled. *)
Theorem not_found_iff_not_listed new_uuid r db
    (store : gmap string Operation) :
  let h := handle new_uuid r db store in
  (response h = HTTPException 404 "Collection not found" ↔
   ¬ (request_source r ∈ listed db ∧ request_target r ∈ listed db)) ∧
  (¬ (request_source r ∈ listed db ∧ request_target r ∈ listed db) →
   store_after h = store ∧ scheduled h = None).
Proof.
  intros h. unfold h. rewrite <- !query_get_listed.
  assert (∀ c1 c2 : CompanyCollection,
            ¬ ¬ (is_Some (Some c1) ∧ is_Some (Some c2))) as Hboth.
  { intros c1 c2 Hn. apply Hn. split; by eexists. }
  assert (∀ o : option CompanyCollection,
            ¬ (is_Some (@None CompanyCollection) ∧ is_Some o)) as Hl.
  { intros o [[? ?] _]. done. }
  assert (∀ o : option CompanyCollection,
            ¬ (is_Some o ∧ is_Some (@None CompanyCollection))) as Hr.
  { intros o [_ [? ?]]. done. }
  destruct r as [s g ids|s g]; simpl;
    unfold add_companies_to_collection, add_all_companies_to_collection;
    destruct (query_get db s) as [csrc|], (query_get db g) as [ctgt|]; simpl;
    try (split; [split; [intros _; (apply Hl || apply Hr)|done]|done]).
  - destruct ids as [|cid ids]; [|case_decide]; simpl;
      (split; [split; [done|]|]; intros Hn; by apply Hboth in Hn).
  - split; [split; [done|]|]; intros Hn; by apply Hboth in Hn.
Qed.

Lemma not_found_iff_not_listed_witness :
  response (handle "op-1" (AddAll S_id 9%N) scenario_db ∅)
    = HTTPException 404 "Collection not found" ∧
  store_after (handle "op-1" (AddAll S_id 9%N) scenario_db ∅) = ∅.
Proof.
  destruct (not_found_iff_not_listed "op-1" (AddAll S_id 9%N) scenario_db ∅)
    as [Hiff Hrest].
  assert (¬ (request_source (AddAll S_id 9%N) ∈ listed scenario_db ∧
             request_target (AddAll S_id 9%N) ∈ listed scenario_db)) as Hnot.
  { intros [_ Hin]. vm_compute in Hin.
    repeat (apply elem_of_cons in Hin as [Hin|Hin]; [discriminate Hin|]).
    by apply elem_of_nil in Hin. }
  split; [by apply Hiff|by apply Hrest].
Defined.

(** X11.  A dispatching request touches no entry of the registry but the
    one under the new identifier.  When it schedules a task, the answer
    carries that identifier, and a poll right away finds the operation
    pending with progress 0, total the number of ids given to the task and
    no error message, whatever was registered under the identifier before.
    When it schedules none, the registry is left as it was and the answer
    is the 404 or the 400. *)
Theorem dispatch_registers new_uuid r db (store : gmap string Operation) :
  let h := handle new_uuid r db store in
  (∀ k, k ≠ new_uuid →
        get_operation_status k (store_after h) = get_operation_status k store) ∧
  match scheduled h with
  | Some t =>
      task_operation_id t = new_uuid ∧
      task_source_collection_id t = request_source r ∧
      task_target_collection_id t = request_target r ∧
      (∃ msg, response h = AddCompaniesResponse new_uuid msg) ∧
      get_operation_status new_uuid (store_after h) =
        Some {| operation_id := new_uuid; status := pending; progress := 0;
                total := length (task_company_ids t);
                error_message := None |}
  | None =>
      store_after h = store ∧
      ∃ detail, response h = HTTPException 404 detail ∨
                response h = HTTPException 400 detail
  end.
Proof.
  intros h. unfold h, get_operation_status.
  destruct r as [s g ids|s g]; simpl;
    unfold add_companies_to_collection, add_all_companies_to_collection;
    destruct (query_get db s) as [csrc|], (query_get db g) as [ctgt|]; simpl;
    try (split; [done|]; split; [done|]; eexists; by left).
  - destruct ids as [|cid ids]; [|case_decide]; simpl.
    + split; [intros k Hk; by apply lookup_insert_ne|].
      repeat split; [by eexists|apply lookup_insert_eq].
    + split; [done|]. split; [done|]. eexists. by right.
    + split; [intros k Hk; by apply lookup_insert_ne|].
      repeat split; [by eexists|apply lookup_insert_eq].
  - split; [intros k Hk; by apply lookup_insert_ne|].
    repeat split; [by eexists|apply lookup_insert_eq].
Qed.

Lemma elem_of_query_all db cid c :
  c ∈ company_id <$> query_all db cid ↔ member c cid ∈ associations db.
Proof.
  unfold query_all. rewrite list_elem_of_fmap. split.
  - intros ([c' k'] & -> & [Hk Ha]%list_elem_of_filter). simpl in *. by subst.
  - intros Ha. exists (member c cid). split; [done|].
    by apply list_elem_of_filter.
Qed.

Lemma query_all_NoDup db cid :
  NoDup (associations db) → NoDup (company_id <$> query_all db cid).
Proof.
  intros Hnd. unfold query_all. apply NoDup_fmap_2_strong.
  - intros [c1 k1] [c2 k2] [Hk1 _]%list_elem_of_filter
      [Hk2 _]%list_elem_of_filter Heq. simpl in *. by subst.
  - by apply NoDup_filter.
Qed.

(** X12.  With both collections there, adding all of a source is never
    refused: the task is scheduled over the company of each row of the
    source, in table order, so a company is asked for exactly when it is a
    member of the source, and no company twice when the pairs of the table
    are unique. *)
Theorem add_all_covers_source new_uuid src tgt db
    (store : gmap string Operation) csrc ctgt :
  let h := add_all_companies_to_collection new_uuid src tgt db store in
  query_get db src = Some csrc → query_get db tgt = Some ctgt →
  ∃ t, scheduled h = Some t ∧
       task_company_ids t = company_id <$> query_all db src ∧
       (∀ c, c ∈ task_company_ids t ↔ member c src ∈ associations db) ∧
       (NoDup (associations db) → NoDup (task_company_ids t)) ∧
       store_after h !! new_uuid =
         Some (new_operation new_uuid (length (query_all db src))).
Proof.
  intros h Hs Ht. unfold h, add_all_companies_to_collection.
  rewrite Hs, Ht. simpl. eexists. split; [done|]. simpl.
  split; [done|]. split; [apply elem_of_query_all|].
  split; [apply query_all_NoDup|].
  rewrite lookup_insert_eq, length_fmap. done.
Qed.

Lemma add_all_covers_source_witness :
  ∃ t, scheduled (add_all_companies_to_collection "op-1" S_id T_id
                    scenario_db ∅) = Some t ∧
       task_company_ids t = [1; 2; 3]%Z.
Proof.
  destruct (add_all_covers_source "op-1" S_id T_id scenario_db ∅
              {| id := S_id; collection_name := "S" |}
              {| id := T_id; collection_name := "T" |})
    as (t & Ht & Hids & _); [reflexivity..|].
  exists t. split; [exact Ht|]. rewrite Hids. reflexivity.
Defined.

(** X13.  On a table whose pairs are unique, adding all of a source to a
    target, with nothing failing and nobody else writing, ends completed
    with progress equal to total, the number of members of the source that
    were not in the target; afterwards a company is in the target exactly
    when it was there before or is a member of the source. *)
Theorem add_all_quiet new_uuid src tgt db (store : gmap string Operation)
    csrc ctgt :
  let h := add_all_companies_to_collection new_uuid src tgt db store in
  let ids := company_id <$> query_all db src in
  let run := run_task quiet (selection_task new_uuid src tgt ids) db
               (store_after h) in
  query_get db src = Some csrc → query_get db tgt = Some ctgt →
  NoDup (associations db) →
  scheduled h = Some (selection_task new_uuid src tgt ids) ∧
  (∀ c, member c tgt ∈ associations (final_db run) ↔
        member c tgt ∈ associations db ∨ member c src ∈ associations db) ∧
  ∃ o, get_operation_status new_uuid (final_store (store_after h) run)
         = Some o ∧
       status o = completed ∧
       progress o = total o ∧
       total o = length (filter (λ c, member c tgt ∉ associations db) ids).
Proof.
  intros h ids run Hs Ht Hnd.
  assert (scheduled h = Some (selection_task new_uuid src tgt ids) ∧
          store_after h !! new_uuid = Some (new_operation new_uuid (length ids)))
    as [Hsched Hop].
  { unfold h, add_all_companies_to_collection. rewrite Hs, Ht. simpl.
    split; [done|]. apply lookup_insert_eq. }
  split; [done|].
  destruct (quiet_run new_uuid ids src tgt db (store_after h) (length ids) Hop)
    as [Hdb Hfin]; [by apply query_all_NoDup|].
  rewrite companies_to_add_alt in Hdb, Hfin. split.
  - intros c. unfold run, run_task. simpl. rewrite Hdb. simpl.
    rewrite elem_of_app, list_elem_of_fmap. split.
    + intros [?|(c' & [= <-] & [_ Hc]%list_elem_of_filter)]; [by left|].
      right. by apply elem_of_query_all.
    + intros [?|Hc]; [by left|].
      destruct (decide (member c tgt ∈ associations db)) as [?|Hn]; [by left|].
      right. exists c. split; [done|]. apply list_elem_of_filter.
      split; [done|]. by apply elem_of_query_all.
  - eexists. split; [exact Hfin|]. done.
Qed.

Lemma add_all_quiet_witness :
  ∃ o, get_operation_status "op-1"
         (final_store
            (store_after (add_all_companies_to_collection "op-1" S_id T_id
                            scenario_db ∅))
            (run_task quiet (selection_task "op-1" S_id T_id [1; 2; 3]%Z)
               scenario_db
               (store_after (add_all_companies_to_collection "op-1" S_id T_id
                               scenario_db ∅)))) = Some o ∧
       status o = completed ∧ progress o = total o.
Proof.
  destruct (add_all_quiet "op-1" S_id T_id scenario_db ∅
              {| id := S_id; collection_name := "S" |}
              {| id := T_id; collection_name := "T" |})
    as (_ & _ & o & Ho & Hs & Hp & _); [reflexivity..| |].
  - apply (bool_decide_unpack _). vm_compute. exact I.
  - exists o. split; [exact Ho|]. split; [exact Hs|exact Hp].
Defined.

(** X14.  When every requested company is already in the target (as when
    the source and the target are the same collection), the task neither
    commits nor waits for anything: provided its membership query answers,
    it leaves the database as it was and the operation completed with
    progress 0 and total 0, whatever else the environment would do. *)
Theorem nothing_to_add env oid company_ids src tgt db
    (store : gmap string Operation) n :
  let run := add_companies_to_collection_task env oid company_ids src tgt
               db store in
  store !! oid = Some (new_operation oid n) →
  query_error env = None →
  (∀ c, c ∈ company_ids → member c tgt ∈ associations db) →
  final_db run = db ∧
  get_operation_status oid (final_store store run) =
    Some {| operation_id := oid; status := completed; progress := 0;
            total := 0; error_message := None |}.
Proof.
  intros run Hop Hq Hall. unfold run.
  rewrite (task_final_db _ _ _ _ _ _ _ _ Hop), task_body_db; [|done].
  rewrite (final_store_task _ _ _ _ _ _ _ _ Hop), task_body_last; [|done].
  rewrite opl_progress, (companies_to_add_nil db company_ids tgt Hall).
  done.
Qed.

Lemma nothing_to_add_witness :
  final_db (add_companies_to_collection_task race_env "op-1" [1; 2; 3]%Z
              S_id S_id race_db race_store) = race_db.
Proof.
  destruct (nothing_to_add race_env "op-1" [1; 2; 3]%Z S_id S_id race_db
              race_store 3) as [Hdb _]; [reflexivity..| |exact Hdb].
  intros c Hc.
  repeat (apply elem_of_cons in Hc as [->|Hc];
          [apply (bool_decide_unpack _); vm_compute; exact I|]).
  by apply elem_of_nil in Hc.
Defined.

(** ** The test for duplicates *)

Lemma prefix_spec n h :
  String.prefix n h = true ↔ ∃ post, h = n +:+ post.
Proof.
  revert h; induction n as [|a n IH]; intros h.
  { split; [by exists h|by destruct h]. }
  destruct h as [|b h]; simpl.
  { split; [done|]. by intros [post ?]. }
  destruct (Ascii.ascii_dec a b) as [->|Hne].
  - rewrite IH. split; intros [post Hp]; exists post.
    + simpl. by rewrite Hp.
    + simpl in Hp. by injection Hp.
  - split; [done|]. intros [post Hp]. simpl in Hp. by injection Hp.
Qed.

Lemma contains_spec n h :
  contains n h = true ↔ ∃ pre post, h = pre +:+ n +:+ post.
Proof.
  induction h as [|b h IH]; cbn [contains].
  - rewrite orb_false_r, prefix_spec. split.
    + intros [post Hp]. by exists ""%string, post.
    + intros (pre & post & Hp). destruct pre; [by exists post|done].
  - rewrite orb_true_iff, prefix_spec, IH. split.
    + intros [[post Hp]|(pre & post & Hp)].
      * by exists ""%string, post.
      * exists (String b pre), post. simpl. by rewrite Hp.
    + intros (pre & post & Hp). destruct pre as [|a pre].
      * left. by exists post.
      * right. simpl in Hp. injection Hp as _ Hp. by exists pre, post.
Qed.

(** X15.  When the commit of a record raises, the loop goes on with the
    next record, from the same registry entry and the database rolled back,
    exactly when the name of the uniqueness constraint occurs somewhere in
    the text of the exception, whatever the exception is; otherwise it
    stops on that record, raising the exception again, and commits none of
    the records after it. *)
Theorem duplicate_test_is_substring env tgt i cid rest op db e :
  let db1 := commit_others (concurrent_commits env i) db in
  add_commit env i (member cid tgt) db1 = Raised e →
  ((∃ pre post, e = pre +:+ "uq_company_collection" +:+ post) →
   insert_loop env tgt i (cid :: rest) op db =
     insert_loop env tgt (S i) rest op db1) ∧
  (¬ (∃ pre post, e = pre +:+ "uq_company_collection" +:+ post) →
   insert_loop env tgt i (cid :: rest) op db = ([], op, db1, Some e)).
Proof.
  intros db1 Hc. cbn [insert_loop]. fold (member cid tgt). fold db1.
  rewrite Hc.
  pose proof (contains_spec uq_company_collection e) as Hspec.
  change uq_company_collection with "uq_company_collection"%string in Hspec.
  change uq_company_collection with "uq_company_collection"%string.
  destruct (contains "uq_company_collection" e).
  - split; [done|]. intros Hn. exfalso. apply Hn. by apply Hspec.
  - split; [|done]. intros Hex. apply Hspec in Hex. done.
Qed.

Lemma duplicate_test_is_substring_witness :
  insert_loop race_env T_id 0 [1; 2; 3]%Z (new_operation "op-1" 3) race_db =
  insert_loop race_env T_id 1 [2; 3]%Z (new_operation "op-1" 3)
    (commit_others [member 1 T_id] race_db).
Proof.
  destruct (duplicate_test_is_substring race_env T_id 0 1%Z [2; 3]%Z
              (new_operation "op-1" 3) race_db unique_violation)
    as [Hskip _]; [reflexivity|].
  apply Hskip.
  exists "duplicate key value violates unique constraint "%string, ""%string.
  reflexivity.
Defined.


